(** * A variable-speed stopwatch over [std::chrono::steady_clock]

    Shallow embedding of the [stopwatch] class (stopwatch.hpp) and of the
    parts of [<chrono>] it is written against.

    - [rep] is the tick count of [steady_clock::duration]: a signed 64-bit
      integer, modelled as [Z] with two's-complement wrap-around written
      out in [Int64].
    - [long double] is the x87 double-extended format (64-bit significand,
      15-bit exponent), modelled with the IEEE 754 specification
      [spec_float] at [prec = 64], [emax = 16384].
    - signed overflow and the conversion of an out-of-range [long double]
      have no defined result in C++; the model gives them the results of
      the x86-64 implementation (wrap-around, "integer indefinite"), and
      the theorems either hold there too or carry a range hypothesis.
    - [steady_clock::now()] is the only effect: the clock is an oracle that
      hands out a sequence of readings, one per call.
    - the member functions are state transformers over the object and the
      clock. *)

From Stdlib Require Import ZArith List Bool Lia.
From Stdlib Require Import SpecFloat.
Import ListNotations.
Local Open Scope Z_scope.

(** ** Signed 64-bit integers *)

Module Int64.
Definition min_signed : Z := - 2 ^ 63.
Definition max_signed : Z := 2 ^ 63 - 1.

Definition in_range (z : Z) : bool :=
  (min_signed <=? z) && (z <=? max_signed).

(** Two's-complement reduction into [min_signed .. max_signed]. *)
Definition wrap (z : Z) : Z := (z + 2 ^ 63) mod 2 ^ 64 - 2 ^ 63.

Definition add (a b : Z) : Z := wrap (a + b).
Definition sub (a b : Z) : Z := wrap (a - b).
End Int64.

(** ** [long double] *)

Module LongDouble.
Definition prec : Z := 64.
Definition emax : Z := 16384.

Definition t : Type := spec_float.

(** [static_cast<long double>(n)] for a 64-bit integer [n]: rounding to
    nearest (every 64-bit integer fits the 64-bit significand). *)
Definition of_rep (n : Z) : t := binary_normalize prec emax n 0 false.

Definition mul (x y : t) : t := SFmul prec emax x y.

(** Magnitude of [m * 2^e] with the fraction discarded. *)
Definition trunc_mag (m : positive) (e : Z) : Z := Z.shiftl (Z.pos m) e.

(** [static_cast<rep>(x)]: truncation toward zero. The conversion of a
    NaN, an infinity or a value outside the 64-bit range has no defined
    result in C++; the x87 conversion instruction stores the "integer
    indefinite" [min_signed] there, and so does the model. *)
Definition to_rep (x : t) : Z :=
  match x with
  | S754_zero _ => 0
  | S754_finite s m e =>
      let v := cond_Zopp s (trunc_mag m e) in
      if Int64.in_range v then v else Int64.min_signed
  | S754_infinity _ | S754_nan => Int64.min_signed
  end.

(** A value that denotes a real number (neither NaN nor an infinity). *)
Definition is_real (x : t) : bool :=
  match x with
  | S754_zero _ | S754_finite _ _ _ => true
  | S754_infinity _ | S754_nan => false
  end.

Definition is_zero (x : t) : bool :=
  match x with
  | S754_zero _ => true
  | _ => false
  end.

(** Strictly below zero. *)
Definition is_negative (x : t) : bool :=
  match x with
  | S754_finite true _ _ => true
  | _ => false
  end.

(** The integer literal [1] converted to [long double]. *)
Definition one : t := of_rep 1.
End LongDouble.

Definition long_double : Type := LongDouble.t.

(** ** The parts of [<chrono>] the class uses *)

Module Chrono.
(** [duration::rep]; the period is the clock's tick and never changes. *)
Definition rep : Type := Z.

(** [steady_clock::duration], by its tick count. *)
Definition duration : Type := rep.

(** [std::chrono::duration<long double, period>], by its count. *)
Definition wide_duration : Type := long_double.

Inductive clock : Type := steady_clock | stopwatch_clock.

(** [std::chrono::time_point<Clock>]. *)
Record time_point (c : clock) : Type :=
  Build_time_point { time_since_epoch : duration }.
Arguments Build_time_point {c} _.
Arguments time_since_epoch {c} _.

(** [time_point - time_point]. *)
Definition time_point_sub {c} (a b : time_point c) : duration :=
  Int64.sub (time_since_epoch a) (time_since_epoch b).

(** [duration + duration]. *)
Definition duration_add (a b : duration) : duration := Int64.add a b.

(** [duration * long double]: the count is converted to the common
    representation [long double] and multiplied there. *)
Definition duration_mul (d : duration) (s : long_double) : wide_duration :=
  LongDouble.mul (LongDouble.of_rep d) s.

(** [duration_cast<duration>] from the wide representation, same period. *)
Definition duration_cast (d : wide_duration) : duration :=
  LongDouble.to_rep d.
End Chrono.

Import Chrono.

Definition steady_time_point : Type := time_point steady_clock.
Definition stopwatch_time_point : Type := time_point stopwatch_clock.

(** ** State: the object and the clock it reads *)

(** The monotonic source: the sequence of readings it will return and how
    many of them have been taken. *)
Record steady_source : Type :=
  { readings : nat -> rep;
    reads : nat }.

Record stopwatch : Type :=
  { m_sync : steady_time_point * stopwatch_time_point;
    m_speed : long_double }.

Record machine : Type :=
  { self : stopwatch;
    source : steady_source }.

(** A member function: it may read and write the object and the clock. *)
Definition Method (A : Type) : Type := machine -> A * machine.

Definition ret {A} (a : A) : Method A := fun m => (a, m).

Definition bind {A B} (c : Method A) (k : A -> Method B) : Method B :=
  fun m => let (a, m') := c m in k a m'.

Notation "x <- c ;; k" := (bind c (fun x => k))
  (at level 61, c at next level, right associativity).
Notation "c ;;; k" := (bind c (fun _ => k))
  (at level 61, right associativity).

(** The reading the next call of [steady_clock::now()] returns. *)
Definition next_reading (s : steady_source) : rep := readings s (reads s).

(** The source after one more reading has been taken. *)
Definition advance (s : steady_source) : steady_source :=
  {| readings := readings s; reads := S (reads s) |}.

(** [steady_clock::now()]. *)
Definition steady_clock_now : Method steady_time_point :=
  fun m =>
    (Build_time_point (next_reading (source m)),
     {| self := self m; source := advance (source m) |}).

Definition get_sync : Method (steady_time_point * stopwatch_time_point) :=
  fun m => (m_sync (self m), m).

Definition get_speed : Method long_double :=
  fun m => (m_speed (self m), m).

Definition put_sync (p : steady_time_point * stopwatch_time_point)
  : Method unit :=
  fun m =>
    (tt, {| self := {| m_sync := p; m_speed := m_speed (self m) |};
            source := source m |}).

Definition put_speed (x : long_double) : Method unit :=
  fun m =>
    (tt, {| self := {| m_sync := m_sync (self m); m_speed := x |};
            source := source m |}).

(** ** The class *)

Definition impl_now : Method (steady_time_point * stopwatch_time_point) :=
  steady_now <- steady_clock_now ;;
  sync <- get_sync ;;
  speed <- get_speed ;;
  let before_sync := time_since_epoch (snd sync) in
  let after_sync :=
    duration_cast (duration_mul (time_point_sub steady_now (fst sync)) speed) in
  ret (steady_now, Build_time_point (duration_add before_sync after_sync)).

Definition now : Method stopwatch_time_point :=
  p <- impl_now ;;
  ret (snd p).

Definition set_speed (speed : long_double) : Method unit :=
  p <- impl_now ;;
  let (steady_now, my_now) := p in
  put_sync (steady_now, my_now) ;;;
  put_speed speed.

Definition speed : Method long_double := get_speed.

(** The object before the constructor body runs: [m_speed] from the
    member initialiser, [m_sync] value-initialised. *)
Definition stopwatch_init (speed : long_double) : stopwatch :=
  {| m_sync := (Build_time_point 0, Build_time_point 0);
     m_speed := speed |}.

Definition stopwatch_body : Method unit :=
  steady_now <- steady_clock_now ;;
  let steady_since_epoch := time_since_epoch steady_now in
  put_sync (steady_now, Build_time_point steady_since_epoch).

(** [stopwatch(long double speed = 1)]. *)
Definition construct (speed : long_double) (src : steady_source) : machine :=
  snd (stopwatch_body {| self := stopwatch_init speed; source := src |}).

Definition default_speed : long_double := LongDouble.one.

(** ** Callers *)

(** A call of one of the public member functions, and what it returns. *)
Inductive call : Type :=
| CallNow
| CallSetSpeed (x : long_double)
| CallSpeed.

Inductive outcome : Type :=
| RetTime (tp : stopwatch_time_point)
| RetVoid
| RetSpeed (x : long_double).

Definition invoke (c : call) : Method outcome :=
  match c with
  | CallNow => tp <- now ;; ret (RetTime tp)
  | CallSetSpeed x => set_speed x ;;; ret RetVoid
  | CallSpeed => x <- speed ;; ret (RetSpeed x)
  end.

Fixpoint invoke_all (cs : list call) : Method (list outcome) :=
  match cs with
  | [] => ret []
  | c :: cs' => o <- invoke c ;; os <- invoke_all cs' ;; ret (o :: os)
  end.

(** The kind of value each member function is declared to return. *)
Definition returns (c : call) (o : outcome) : bool :=
  match c, o with
  | CallNow, RetTime _ => true
  | CallSetSpeed _, RetVoid => true
  | CallSpeed, RetSpeed _ => true
  | _, _ => false
  end.

Fixpoint set_speeds (rates : list long_double) : Method unit :=
  match rates with
  | [] => ret tt
  | x :: rest => set_speed x ;;; set_speeds rest
  end.

(** The measurement of examples/basic_usage.cpp: a time point, some rate
    changes, a second time point, and the duration between the two. *)
Definition measure (rates : list long_double) : Method duration :=
  start <- now ;;
  set_speeds rates ;;;
  finish <- now ;;
  ret (time_point_sub finish start).

(** ** The piecewise-linear model of the specification *)

(** The value [impl_now] computes for the reading [t] in the state [s]. *)
Definition logical (s : stopwatch) (t : rep) : rep :=
  duration_add
    (time_since_epoch (snd (m_sync s)))
    (duration_cast
       (duration_mul (Int64.sub t (time_since_epoch (fst (m_sync s))))
                     (m_speed s))).

(** The state [set_speed x] leaves when the source reads [t]. *)
Definition resync (s : stopwatch) (t : rep) (x : long_double) : stopwatch :=
  {| m_sync := (Build_time_point t, Build_time_point (logical s t));
     m_speed := x |}.

Fixpoint apply_changes (s : stopwatch) (changes : list (rep * long_double))
  : stopwatch :=
  match changes with
  | [] => s
  | (t, x) :: rest => apply_changes (resync s t x) rest
  end.

(** The source after [n] more readings. *)
Definition advance_by (n : nat) (s : steady_source) : steady_source :=
  {| readings := readings s; reads := n + reads s |}.

(** Logical ticks that pass while the source advances by [d] at rate [r]:
    the product is taken in [long double] and then truncated. *)
Definition elapsed (d : duration) (r : long_double) : duration :=
  duration_cast (duration_mul d r).

(** Logical time at the reading [t], from the synchronisation point
    [(syncMonotonic, syncLogical)] and the rate: the formula of the
    specification, over the integers. *)
Definition logical_time (syncMonotonic syncLogical : Z) (rate : long_double)
    (t : Z) : Z :=
  syncLogical + LongDouble.to_rep
                  (LongDouble.mul (LongDouble.of_rep (t - syncMonotonic)) rate).

(** Sum of [segment duration * segment rate] over the segments that start
    at the reading [t0] with rate [r0], change rate at each of [changes]
    and end at the reading [t_end]. *)
Fixpoint segment_sum (t0 : rep) (r0 : long_double)
    (changes : list (rep * long_double)) (t_end : rep) : Z :=
  match changes with
  | [] => elapsed (Int64.sub t_end t0) r0
  | (t1, r1) :: rest =>
      elapsed (Int64.sub t1 t0) r0 + segment_sum t1 r1 rest t_end
  end.

(** The [n] readings of the source from position [k] on. *)
Definition readings_from (s : steady_source) (k : nat) (n : nat) : list rep :=
  map (readings s) (seq k n).

(** Two sources that return the same readings from the same position. *)
Definition same_readings (a b : steady_source) : Prop :=
  reads a = reads b /\ forall i : nat, readings a i = readings b i.

(** A source that is read at the given instants, then stays at [last]. *)
Definition source_of (ts : list rep) (last : rep) : steady_source :=
  {| readings := fun i => nth i ts last; reads := 0 |}.

(** The run of examples/basic_usage.cpp, in nanoseconds: constructed and
    first read at 0, reversed at 0, sped up to 2.5 after 5 s, stopped
    after 10 s, read again after 15 s. *)
Definition usage_source : steady_source :=
  source_of [0; 0; 0; 5000000000; 10000000000; 15000000000] 15000000000.

(** Some values of [long double]. *)
Definition ld_zero : long_double := LongDouble.of_rep 0.
Definition ld_minus_one : long_double := LongDouble.of_rep (-1).
(** 2.5 = 5 * 2^-1 *)
Definition ld_2_5 : long_double :=
  binary_normalize LongDouble.prec LongDouble.emax 5 (-1) false.
(** The [double] literal -0.3, widened. *)
Definition ld_minus_0_3 : long_double :=
  binary_normalize LongDouble.prec LongDouble.emax
    (-5404319552844595) (-54) false.
(** -1/2 *)
Definition ld_minus_half : long_double :=
  binary_normalize LongDouble.prec LongDouble.emax (-1) (-1) false.
Definition ld_infinity : long_double := S754_infinity false.

(** ** Rounding to the format, as integer arithmetic

    What [binary_round_aux] computes on an exact product, written with
    division and remainder; the lemmas below prove the two equal. *)

(** [M / 2^k] rounded to the nearest integer, ties to even ([0 < k]). *)
Definition rne_shift (M k : Z) : Z :=
  let q := M / 2 ^ k in
  match M mod 2 ^ k ?= 2 ^ (k - 1) with
  | Lt => q
  | Eq => if Z.even q then q else q + 1
  | Gt => q + 1
  end.

(** Significand and exponent of [M * 2^e] rounded to the format. *)
Definition round_mant (M e : Z) : Z * Z :=
  let E := fexp LongDouble.prec LongDouble.emax (Zdigits2 M + e) in
  if E <=? e then (M, e)
  else
    let m' := rne_shift M (E - e) in
    if m' =? 2 ^ 64 then (2 ^ 63, E + 1) else (m', E).

Definition of_round (s : bool) (me : Z * Z) : long_double :=
  match fst me with
  | Z0 => S754_zero s
  | Zpos m =>
      if snd me <=? LongDouble.emax - LongDouble.prec
      then S754_finite s m (snd me)
      else S754_infinity s
  | Zneg _ => S754_nan
  end.

(** Left shift that normalises a positive integer below [2^64] to a
    64-bit significand. *)
Definition norm_shift (d : Z) : Z := 64 - Zdigits2 d.

(** Integer part of [m * 2^e]. *)
Definition floor_val (me : Z * Z) : Z := Z.shiftl (fst me) (snd me).

(** [N * 2^e] rounded to the format, in units of [2^e]. *)
Definition round_units (N e : Z) : Z :=
  let E := fexp LongDouble.prec LongDouble.emax (Zdigits2 N + e) in
  if E <=? e then N else rne_shift N (E - e) * 2 ^ (E - e).

(** Integer part of the magnitude of [d * r], rounded to the format, for
    a rate of significand [mr] and exponent [er]. *)
Definition scaled_floor (d : Z) (mr : positive) (er : Z) : Z :=
  floor_val (round_mant (d * Z.pos mr) er).

(** ** Further callers and predicates *)

(** Strictly above zero. *)
Definition is_positive (x : long_double) : bool :=
  match x with
  | S754_finite false _ _ => true
  | _ => false
  end.

(** The member functions that call [steady_clock::now()]. *)
Definition reads_clock (c : call) : bool :=
  match c with
  | CallSpeed => false
  | CallNow | CallSetSpeed _ => true
  end.

Definition is_set_speed (c : call) : bool :=
  match c with
  | CallSetSpeed _ => true
  | _ => false
  end.

(** The reading the source returns [i] calls from now. *)
Definition reading (src : steady_source) (i : nat) : rep :=
  readings src (i + reads src).

Fixpoint nondecreasing (l : list Z) : bool :=
  match l with
  | a :: (b :: _) as rest => (a <=? b) && nondecreasing rest
  | _ => true
  end.

(** One of the three loops of [main] in examples/basic_usage.cpp:
    [for (i < n) { cout << ... sw.now() ...; sleep_for(1s); }]. The loop
    acts on the stopwatch through [now()] only; the model returns the
    time points read, in order. What is not modelled: the conversion of
    each time point to seconds and its formatting on [cout], and the
    sleep, which shows only in the readings the source returns next. *)
Fixpoint report (n : nat) : Method (list stopwatch_time_point) :=
  match n with
  | O => ret []
  | S n' => tp <- now ;; rest <- report n' ;; ret (tp :: rest)
  end.

(** [main] of examples/basic_usage.cpp: the time points of the three
    loops and the duration [finish - start] of its last line, in ticks. *)
Definition usage_main (src : steady_source)
  : list stopwatch_time_point * duration :=
  fst ((start <- now ;;
        set_speed ld_minus_one ;;;
        out1 <- report 5 ;;
        set_speed ld_2_5 ;;;
        out2 <- report 5 ;;
        set_speed ld_zero ;;;
        out3 <- report 5 ;;
        finish <- now ;;
        ret (out1 ++ out2 ++ out3, time_point_sub finish start))
       (construct default_speed src)).

(** The stopwatch of [main] after its constructor and after each of its
    three [set_speed] calls, which take the readings 2, 8 and 14. *)
Definition usage_sw0 (src : steady_source) : stopwatch :=
  self (construct default_speed src).
Definition usage_sw1 (src : steady_source) : stopwatch :=
  resync (usage_sw0 src) (reading src 2) ld_minus_one.
Definition usage_sw2 (src : steady_source) : stopwatch :=
  resync (usage_sw1 src) (reading src 8) ld_2_5.
Definition usage_sw3 (src : steady_source) : stopwatch :=
  resync (usage_sw2 src) (reading src 14) ld_zero.

(** A source that starts at 1000 s and is read once per second. *)
Definition one_second_source : steady_source :=
  {| readings := fun i => 1000000000 * (1000 + Z.of_nat i); reads := 0 |}.

(** * Properties *)

Ltac pow2_pos := apply Z.pow_pos_nonneg; lia.

(** ** 64-bit arithmetic *)

Lemma wrap_range (z : Z) : Int64.in_range (Int64.wrap z) = true.
Proof.
  unfold Int64.in_range, Int64.wrap, Int64.min_signed, Int64.max_signed.
  pose proof (Z.mod_pos_bound (z + 2 ^ 63) (2 ^ 64) ltac:(lia)).
  apply andb_true_intro; split; apply Z.leb_le; lia.
Qed.

Lemma wrap_small (z : Z) : Int64.in_range z = true -> Int64.wrap z = z.
Proof.
  unfold Int64.in_range, Int64.wrap, Int64.min_signed, Int64.max_signed.
  intros H. apply andb_prop in H. destruct H as [Hl Hu].
  apply Z.leb_le in Hl. apply Z.leb_le in Hu.
  rewrite Z.mod_small; lia.
Qed.

Lemma wrap_idem (z : Z) : Int64.wrap (Int64.wrap z) = Int64.wrap z.
Proof. apply wrap_small, wrap_range. Qed.

Lemma wrap_add_l (a b : Z) : Int64.wrap (Int64.wrap a + b) = Int64.wrap (a + b).
Proof.
  unfold Int64.wrap. f_equal.
  replace ((a + 2 ^ 63) mod 2 ^ 64 - 2 ^ 63 + b + 2 ^ 63)
    with ((a + 2 ^ 63) mod 2 ^ 64 + b) by lia.
  rewrite Zplus_mod_idemp_l. f_equal. lia.
Qed.

Lemma wrap_add_r (a b : Z) : Int64.wrap (a + Int64.wrap b) = Int64.wrap (a + b).
Proof. rewrite Z.add_comm, wrap_add_l. f_equal. lia. Qed.

Lemma wrap_sub_l (a b : Z) : Int64.wrap (Int64.wrap a - b) = Int64.wrap (a - b).
Proof. unfold Z.sub. apply wrap_add_l. Qed.

Lemma wrap_sub_r (a b : Z) : Int64.wrap (a - Int64.wrap b) = Int64.wrap (a - b).
Proof.
  unfold Int64.wrap. f_equal.
  assert (E : 2 ^ 64 = 2 * 2 ^ 63) by reflexivity.
  set (X := (b + 2 ^ 63) mod 2 ^ 64).
  replace (a - (X - 2 ^ 63) + 2 ^ 63) with (a + 2 ^ 64 - X) by lia.
  subst X. rewrite Zminus_mod_idemp_r.
  f_equal. lia.
Qed.

Lemma in_range_bounds (z : Z) :
  Int64.in_range z = true <-> - 2 ^ 63 <= z <= 2 ^ 63 - 1.
Proof.
  unfold Int64.in_range, Int64.min_signed, Int64.max_signed.
  rewrite andb_true_iff, !Z.leb_le. tauto.
Qed.

Lemma sub_diag (t : rep) : Int64.sub t t = 0.
Proof. unfold Int64.sub. rewrite Z.sub_diag. reflexivity. Qed.

(** ** The member functions, run *)

Lemma impl_now_run (m : machine) :
  impl_now m =
  ((Build_time_point (next_reading (source m)),
    Build_time_point (logical (self m) (next_reading (source m)))),
   {| self := self m; source := advance (source m) |}).
Proof. reflexivity. Qed.

Lemma now_run (m : machine) :
  now m =
  (Build_time_point (logical (self m) (next_reading (source m))),
   {| self := self m; source := advance (source m) |}).
Proof. reflexivity. Qed.

Lemma set_speed_run (x : long_double) (m : machine) :
  set_speed x m =
  (tt, {| self := resync (self m) (next_reading (source m)) x;
          source := advance (source m) |}).
Proof. reflexivity. Qed.

Lemma speed_run (m : machine) : speed m = (m_speed (self m), m).
Proof. reflexivity. Qed.

Lemma construct_run (x : long_double) (src : steady_source) :
  construct x src =
  {| self := {| m_sync := (Build_time_point (next_reading src),
                           Build_time_point (next_reading src));
                m_speed := x |};
     source := advance src |}.
Proof. reflexivity. Qed.

Lemma advance_by_S (n : nat) (s : steady_source) :
  advance_by n (advance s) = advance_by (S n) s.
Proof. unfold advance_by, advance; simpl. f_equal. lia. Qed.

Lemma readings_from_S (s : steady_source) (k n : nat) :
  readings_from s k (S n) = readings s k :: readings_from s (S k) n.
Proof. reflexivity. Qed.

Lemma set_speeds_run (rates : list long_double) :
  forall m : machine,
    set_speeds rates m =
    (tt, {| self := apply_changes (self m)
                      (combine (readings_from (source m) (reads (source m))
                                  (length rates)) rates);
            source := advance_by (length rates) (source m) |}).
Proof.
  induction rates as [|x rest IH]; intros m.
  - destruct m as [s [rd k]]; reflexivity.
  - cbn [set_speeds]. unfold bind at 1. rewrite set_speed_run.
    rewrite IH. cbn [self source]. rewrite advance_by_S.
    reflexivity.
Qed.

(** ** Binary digits and shifts *)

Lemma digits2_pos_bounds (p : positive) :
  2 ^ (Z.pos (digits2_pos p) - 1) <= Z.pos p < 2 ^ Z.pos (digits2_pos p).
Proof.
  induction p as [p IH|p IH|]; cbn [digits2_pos].
  - rewrite Pos2Z.inj_succ.
    replace (Z.succ (Z.pos (digits2_pos p)) - 1) with (Z.succ (Z.pos (digits2_pos p) - 1)) by lia.
    rewrite !Z.pow_succ_r by lia. lia.
  - rewrite Pos2Z.inj_succ.
    replace (Z.succ (Z.pos (digits2_pos p)) - 1) with (Z.succ (Z.pos (digits2_pos p) - 1)) by lia.
    rewrite !Z.pow_succ_r by lia. lia.
  - cbn. lia.
Qed.

Lemma Zdigits2_bounds (m : Z) :
  0 < m -> 2 ^ (Zdigits2 m - 1) <= m < 2 ^ Zdigits2 m.
Proof.
  destruct m as [|p|p]; try lia. intros _. apply digits2_pos_bounds.
Qed.

Lemma Zdigits2_nonneg (m : Z) : 0 <= Zdigits2 m.
Proof. destruct m; cbn; lia. Qed.

Lemma Zdigits2_unique (m n : Z) :
  2 ^ (n - 1) <= m < 2 ^ n -> 0 < m -> Zdigits2 m = n.
Proof.
  intros [Hl Hu] Hm.
  pose proof (Zdigits2_bounds m Hm) as [Hl' Hu'].
  pose proof (Zdigits2_nonneg m) as Hd.
  assert (0 < n).
  { destruct (Z_lt_le_dec 0 n); [assumption|].
    rewrite (Z.pow_neg_r 2 (n - 1)) in Hl by lia.
    assert (2 ^ n <= 1); [|lia].
    destruct (Z.eq_dec n 0) as [->|]; [cbn; lia|].
    rewrite Z.pow_neg_r; lia. }
  assert (Zdigits2 m <> 0) by (destruct m; cbn in *; lia).
  assert (Zdigits2 m - 1 < n)
    by (apply (Z.pow_lt_mono_r_iff 2); lia).
  assert (n - 1 < Zdigits2 m)
    by (apply (Z.pow_lt_mono_r_iff 2); lia).
  lia.
Qed.

Lemma Zdigits2_le (m n : Z) : 0 <= n -> 0 <= m < 2 ^ n -> Zdigits2 m <= n.
Proof.
  intros Hn [Hl Hu].
  destruct (Z.eq_dec m 0) as [->|Hne]; [cbn; lia|].
  pose proof (Zdigits2_bounds m ltac:(lia)) as [Hl' Hu'].
  assert (Zdigits2 m <> 0) by (destruct m; cbn in *; lia).
  pose proof (Zdigits2_nonneg m).
  assert (Zdigits2 m - 1 < n)
    by (apply (Z.pow_lt_mono_r_iff 2); lia).
  lia.
Qed.

Lemma Zdigits2_mono (a b : Z) : 0 <= a <= b -> Zdigits2 a <= Zdigits2 b.
Proof.
  intros [Ha Hab]. destruct (Z.eq_dec a 0) as [->|]; [apply Zdigits2_nonneg|].
  pose proof (Zdigits2_bounds b ltac:(lia)) as [_ Hu].
  apply Zdigits2_le; [apply Zdigits2_nonneg | lia].
Qed.

Lemma Zdigits2_mul_pow2 (n j : Z) :
  0 < n -> 0 <= j -> Zdigits2 (n * 2 ^ j) = Zdigits2 n + j.
Proof.
  intros Hn Hj. pose proof (Zdigits2_bounds n Hn) as [Hl Hu].
  assert (0 < 2 ^ j) by pow2_pos.
  assert (Zdigits2 n <> 0) by (destruct n; cbn in *; lia).
  pose proof (Zdigits2_nonneg n).
  apply Zdigits2_unique; [|nia].
  replace (Zdigits2 n + j - 1) with (Zdigits2 n - 1 + j) by lia.
  rewrite !Z.pow_add_r by lia. nia.
Qed.

Lemma iter_pos_nat {A} (f : A -> A) (p : positive) :
  forall x, iter_pos f p x = Nat.iter (Pos.to_nat p) f x.
Proof.
  induction p as [p IH|p IH|]; intros x; cbn [iter_pos].
  - rewrite !IH, Pos2Nat.inj_xI.
    replace (2 * Pos.to_nat p)%nat with (Pos.to_nat p + Pos.to_nat p)%nat by lia.
    rewrite Nat.iter_succ_r, Nat.iter_add. reflexivity.
  - rewrite !IH, Pos2Nat.inj_xO.
    replace (2 * Pos.to_nat p)%nat with (Pos.to_nat p + Pos.to_nat p)%nat by lia.
    rewrite Nat.iter_add. reflexivity.
  - reflexivity.
Qed.

Lemma iter_xO (m d : positive) :
  Z.pos (Pos.iter xO m d) = Z.pos m * 2 ^ Z.pos d.
Proof.
  induction d as [|d IH] using Pos.peano_ind.
  - cbn. lia.
  - rewrite Pos.iter_succ, Pos2Z.inj_xO, IH, Pos2Z.inj_succ, Z.pow_succ_r by lia.
    lia.
Qed.

Lemma shr_1_nonneg (m : Z) (r s : bool) :
  0 <= m ->
  shr_1 {| shr_m := m; shr_r := r; shr_s := s |}
  = {| shr_m := m / 2; shr_r := Z.odd m; shr_s := r || s |}.
Proof.
  intros Hm. destruct m as [|p|p]; [reflexivity| |lia].
  destruct p as [p|p|]; cbn [shr_1].
  - f_equal. apply (Z.div_unique _ 2 _ 1); lia.
  - f_equal. apply (Z.div_unique _ 2 _ 0); lia.
  - reflexivity.
Qed.

Lemma shr_iter (M : Z) (n : nat) :
  0 <= M ->
  Nat.iter (S n) shr_1 {| shr_m := M; shr_r := false; shr_s := false |}
  = {| shr_m := M / 2 ^ Z.of_nat (S n);
       shr_r := Z.odd (M / 2 ^ Z.of_nat n);
       shr_s := negb (M mod 2 ^ Z.of_nat n =? 0) |}.
Proof.
  intros HM. induction n as [|n IH].
  - cbn [Nat.iter]. rewrite shr_1_nonneg by assumption.
    change (2 ^ Z.of_nat 0) with 1. rewrite Z.div_1_r, Z.mod_1_r. reflexivity.
  - change (Nat.iter (S (S n)) shr_1 ?x) with (shr_1 (Nat.iter (S n) shr_1 x)).
    rewrite IH.
    assert (Hp : 0 < 2 ^ Z.of_nat n) by pow2_pos.
    assert (Hs : 2 ^ Z.of_nat (S n) = 2 ^ Z.of_nat n * 2)
      by (rewrite Nat2Z.inj_succ, Z.pow_succ_r; lia).
    assert (Hp' : 0 < 2 ^ Z.of_nat (S n)) by lia.
    rewrite shr_1_nonneg by (apply Z.div_pos; lia).
    f_equal.
    + rewrite Z.div_div by lia.
      rewrite (Nat2Z.inj_succ (S n)), Z.pow_succ_r by lia. f_equal. lia.
    + rewrite Hs. rewrite Z.rem_mul_r by lia.
      rewrite Zmod_odd.
      pose proof (Z.mod_pos_bound M (2 ^ Z.of_nat n) Hp) as Hb.
      destruct (Z.odd (M / 2 ^ Z.of_nat n)); cbn [orb].
      * symmetry. apply negb_true_iff, Z.eqb_neq. lia.
      * rewrite Z.mul_0_r, Z.add_0_r. reflexivity.
Qed.

Lemma shiftl_mono (a b n : Z) : a <= b -> Z.shiftl a n <= Z.shiftl b n.
Proof.
  intros Hab. destruct (Z_le_gt_dec 0 n) as [Hn|Hn].
  - rewrite !Z.shiftl_mul_pow2 by lia.
    apply Z.mul_le_mono_nonneg_r; [apply Z.pow_nonneg; lia | exact Hab].
  - rewrite !Z.shiftl_div_pow2 by lia.
    apply Z.div_le_mono; [apply Z.pow_pos_nonneg; lia | exact Hab].
Qed.

(** ** Rounding to nearest, ties to even *)

Lemma rne_shift_bounds (M k : Z) :
  M / 2 ^ k <= rne_shift M k <= M / 2 ^ k + 1.
Proof.
  unfold rne_shift.
  destruct (M mod 2 ^ k ?= 2 ^ (k - 1)); [destruct (Z.even _)| |]; lia.
Qed.

Lemma rne_shift_exact (M k : Z) :
  0 < k -> M mod 2 ^ k = 0 -> rne_shift M k = M / 2 ^ k.
Proof.
  intros Hk Hm. unfold rne_shift. rewrite Hm.
  assert (0 < 2 ^ (k - 1)) by pow2_pos.
  replace (0 ?= 2 ^ (k - 1)) with Lt by (symmetry; apply Z.compare_lt_iff; lia).
  reflexivity.
Qed.

Lemma rne_shift_0 (k : Z) : 0 < k -> rne_shift 0 k = 0.
Proof. intros Hk. rewrite rne_shift_exact by (try apply Z.mod_0_l; lia). apply Z.div_0_l. apply Z.pow_nonzero; lia. Qed.

Lemma rne_shift_scale (N k j : Z) :
  0 < k -> 0 <= j -> rne_shift (N * 2 ^ j) (k + j) = rne_shift N k.
Proof.
  intros Hk Hj. unfold rne_shift.
  assert (Hp : 0 < 2 ^ j) by pow2_pos.
  assert (Hpk : 0 < 2 ^ k) by pow2_pos.
  replace (k + j - 1) with (k - 1 + j) by lia.
  rewrite !Z.pow_add_r by lia.
  rewrite Z.div_mul_cancel_r, Z.mul_mod_distr_r by lia.
  rewrite <- Zmult_compare_compat_r by lia. reflexivity.
Qed.

Lemma rne_shift_mono (M1 M2 k : Z) :
  0 < k -> M1 <= M2 -> rne_shift M1 k <= rne_shift M2 k.
Proof.
  intros Hk HM.
  assert (Hp : 0 < 2 ^ k) by pow2_pos.
  pose proof (Z.div_le_mono M1 M2 (2 ^ k) Hp HM) as Hq.
  pose proof (rne_shift_bounds M1 k) as B1.
  pose proof (rne_shift_bounds M2 k) as B2.
  destruct (Z.eq_dec (M1 / 2 ^ k) (M2 / 2 ^ k)) as [Heq|Hne]; [|lia].
  pose proof (Z.div_mod M1 (2 ^ k) ltac:(lia)) as D1.
  pose proof (Z.div_mod M2 (2 ^ k) ltac:(lia)) as D2.
  assert (Hr : M1 mod 2 ^ k <= M2 mod 2 ^ k) by (rewrite Heq in D1; lia).
  unfold rne_shift. rewrite Heq.
  destruct (Z.compare_spec (M1 mod 2 ^ k) (2 ^ (k - 1)));
    destruct (Z.compare_spec (M2 mod 2 ^ k) (2 ^ (k - 1)));
    try destruct (Z.even (M2 / 2 ^ k)); lia.
Qed.

Lemma rne_shift_error (N k : Z) :
  0 < k -> Z.abs (rne_shift N k * 2 ^ k - N) <= 2 ^ (k - 1).
Proof.
  intros Hk.
  assert (Hp : 0 < 2 ^ (k - 1)) by pow2_pos.
  assert (Hs : 2 ^ k = 2 * 2 ^ (k - 1))
    by (rewrite <- Z.pow_succ_r by lia; f_equal; lia).
  pose proof (Z.div_mod N (2 ^ k) ltac:(lia)) as D.
  pose proof (Z.mod_pos_bound N (2 ^ k) ltac:(lia)) as B.
  unfold rne_shift.
  destruct (Z.compare_spec (N mod 2 ^ k) (2 ^ (k - 1)));
    try destruct (Z.even (N / 2 ^ k)); nia.
Qed.

Lemma shr_round (M : Z) (k : positive) :
  0 <= M ->
  let mrs := iter_pos shr_1 k {| shr_m := M; shr_r := false; shr_s := false |} in
  round_nearest_even (shr_m mrs) (loc_of_shr_record mrs) = rne_shift M (Z.pos k).
Proof.
  intros HM mrs. subst mrs. rewrite iter_pos_nat.
  destruct (Pos2Nat.is_succ k) as [n Hn]. rewrite Hn.
  rewrite shr_iter by assumption.
  assert (Hk : Z.pos k = Z.of_nat n + 1) by lia.
  unfold rne_shift. rewrite Hk.
  replace (Z.of_nat (S n)) with (Z.of_nat n + 1) by lia.
  replace (Z.of_nat n + 1 - 1) with (Z.of_nat n) by lia.
  assert (Hp : 0 < 2 ^ Z.of_nat n) by pow2_pos.
  assert (Hs : 2 ^ (Z.of_nat n + 1) = 2 ^ Z.of_nat n * 2)
    by (rewrite Z.pow_add_r; lia).
  assert (Hmod : M mod 2 ^ (Z.of_nat n + 1)
                 = M mod 2 ^ Z.of_nat n + 2 ^ Z.of_nat n * ((M / 2 ^ Z.of_nat n) mod 2))
    by (rewrite Hs; apply Z.rem_mul_r; lia).
  cbv zeta. rewrite Hmod, Zmod_odd.
  pose proof (Z.mod_pos_bound M (2 ^ Z.of_nat n) Hp) as Hb.
  cbn [shr_m loc_of_shr_record].
  destruct (Z.odd (M / 2 ^ Z.of_nat n)).
  - destruct (Z.eqb_spec (M mod 2 ^ Z.of_nat n) 0) as [E|E]; cbn [negb].
    + rewrite E. rewrite Z.add_0_l, Z.mul_1_r, Z.compare_refl. reflexivity.
    + replace (M mod 2 ^ Z.of_nat n + 2 ^ Z.of_nat n * 1 ?= 2 ^ Z.of_nat n) with Gt
        by (symmetry; apply Z.compare_gt_iff; lia).
      reflexivity.
  - replace (M mod 2 ^ Z.of_nat n + 2 ^ Z.of_nat n * 0 ?= 2 ^ Z.of_nat n) with Lt
      by (symmetry; apply Z.compare_lt_iff; lia).
    destruct (negb (M mod 2 ^ Z.of_nat n =? 0)); reflexivity.
Qed.

(** ** [binary_round_aux] on an exact product *)

Lemma fexp_eq (n : Z) : fexp LongDouble.prec LongDouble.emax n = Z.max (n - 64) (-16445).
Proof. reflexivity. Qed.

Lemma bra_spec (s : bool) (M e : Z) :
  0 <= M ->
  binary_round_aux LongDouble.prec LongDouble.emax s M e loc_Exact = of_round s (round_mant M e).
Proof.
  intros HM. unfold binary_round_aux, round_mant, shr_fexp.
  set (E := fexp LongDouble.prec LongDouble.emax (Zdigits2 M + e)).
  assert (HE : E = Z.max (Zdigits2 M + e - 64) (-16445)) by apply fexp_eq.
  cbn [shr_record_of_loc].
  destruct (Z.leb_spec E e) as [Hle|Hgt].
  - assert (Hsh : shr {| shr_m := M; shr_r := false; shr_s := false |} e (E - e)
                  = ({| shr_m := M; shr_r := false; shr_s := false |}, e)).
    { unfold shr. destruct (E - e) eqn:Hk; try reflexivity. lia. }
    rewrite Hsh. cbn [shr_m loc_of_shr_record round_nearest_even].
    fold E. rewrite Hsh. reflexivity.
  - destruct (E - e) as [|k|k] eqn:Hk; try lia.
    cbn [shr]. 
    pose proof (shr_round M k HM) as Hr. cbv zeta in Hr. 
    set (mrs := iter_pos shr_1 k _) in *.
    rewrite Hr. replace (e + Z.pos k) with E by lia.
    set (m' := rne_shift M (Z.pos k)).
    assert (Hp : 0 < 2 ^ Z.pos k) by pow2_pos.
    assert (Hq : 0 <= M / 2 ^ Z.pos k < 2 ^ 64).
    { split; [apply Z.div_pos; lia|].
      apply Z.div_lt_upper_bound; [lia|].
      destruct (Z.eq_dec M 0) as [->|]; [lia|].
      pose proof (Zdigits2_bounds M ltac:(lia)) as [_ Hu].
      pose proof (Zdigits2_nonneg M).
      rewrite <- Z.pow_add_r by lia.
      eapply Z.lt_le_trans; [exact Hu|].
      apply Z.pow_le_mono_r; lia. }
    pose proof (rne_shift_bounds M (Z.pos k)) as Hb. fold m' in Hb.
    destruct (Z.eqb_spec m' (2 ^ 64)) as [E64|N64].
    + rewrite E64.
      replace (fexp LongDouble.prec LongDouble.emax (Zdigits2 (2 ^ 64) + E) - E) with 1
        by (rewrite fexp_eq; change (Zdigits2 (2 ^ 64)) with 65; lia).
      reflexivity.
    + assert (Hd : Zdigits2 m' <= 64) by (apply Zdigits2_le; lia).
      assert (Hsh : shr {| shr_m := m'; shr_r := false; shr_s := false |} E
                      (fexp LongDouble.prec LongDouble.emax (Zdigits2 m' + E) - E)
                    = ({| shr_m := m'; shr_r := false; shr_s := false |}, E)).
      { unfold shr. rewrite fexp_eq.
        destruct (Z.max (Zdigits2 m' + E - 64) (-16445) - E) eqn:Hk';
          try reflexivity. lia. }
      rewrite Hsh. reflexivity.
Qed.

Lemma round_mant_nonneg (M e : Z) : 0 <= M -> 0 <= fst (round_mant M e).
Proof.
  intros HM. unfold round_mant.
  set (E := fexp LongDouble.prec LongDouble.emax (Zdigits2 M + e)).
  destruct (Z.leb_spec E e); [exact HM|].
  destruct (Z.eqb_spec (rne_shift M (E - e)) (2 ^ 64)); cbn [fst]; [lia|].
  pose proof (rne_shift_bounds M (E - e)) as [Hb _].
  assert (0 < 2 ^ (E - e)) by pow2_pos.
  pose proof (Z.div_pos M (2 ^ (E - e)) HM ltac:(lia)). lia.
Qed.

(** ** The rounded value: scaling, monotonicity, exactness *)

Lemma round_units_0 (e : Z) : round_units 0 e = 0.
Proof.
  unfold round_units. destruct (Z.leb_spec (fexp LongDouble.prec LongDouble.emax (Zdigits2 0 + e)) e); [reflexivity|].
  rewrite rne_shift_0 by lia. reflexivity.
Qed.

Lemma round_units_nonneg (N e : Z) : 0 <= N -> 0 <= round_units N e.
Proof.
  intros HN. unfold round_units.
  destruct (Z.leb_spec (fexp LongDouble.prec LongDouble.emax (Zdigits2 N + e)) e) as [Hle|Hgt]; [lia|].
  set (k := fexp LongDouble.prec LongDouble.emax (Zdigits2 N + e) - e).
  assert (Hp : 0 < 2 ^ k) by pow2_pos.
  pose proof (rne_shift_bounds N k) as [Hb _].
  pose proof (Z.div_pos N (2 ^ k) HN Hp). nia.
Qed.

Lemma round_units_le_pow (N e : Z) : 0 < N -> round_units N e <= 2 ^ Zdigits2 N.
Proof.
  intros HN. pose proof (Zdigits2_bounds N HN) as [Hl Hu].
  pose proof (Zdigits2_nonneg N) as Hd.
  unfold round_units. rewrite fexp_eq.
  set (E := Z.max (Zdigits2 N + e - 64) (-16445)).
  destruct (Z.leb_spec E e) as [Hle|Hgt]; [lia|].
  set (k := E - e). assert (Hk : 0 < k) by (unfold k; lia).
  assert (Hp : 0 < 2 ^ k) by pow2_pos.
  destruct (Z_le_gt_dec k (Zdigits2 N)) as [Hkd|Hkd].
  - pose proof (rne_shift_bounds N k) as [_ Hb].
    assert (Hq : N / 2 ^ k < 2 ^ (Zdigits2 N - k)).
    { apply Z.div_lt_upper_bound; [lia|].
      rewrite <- Z.pow_add_r by lia. replace (k + (Zdigits2 N - k)) with (Zdigits2 N) by lia.
      exact Hu. }
    replace (2 ^ Zdigits2 N) with (2 ^ (Zdigits2 N - k) * 2 ^ k)
      by (rewrite <- Z.pow_add_r by lia; f_equal; lia).
    apply Z.mul_le_mono_nonneg_r; lia.
  - assert (Hh : 2 ^ Zdigits2 N <= 2 ^ (k - 1)) by (apply Z.pow_le_mono_r; lia).
    assert (Hlt : N < 2 ^ k).
    { eapply Z.lt_le_trans; [exact Hu|]. apply Z.pow_le_mono_r; lia. }
    unfold rne_shift. rewrite Z.mod_small, Z.div_small by lia.
    replace (N ?= 2 ^ (k - 1)) with Lt by (symmetry; apply Z.compare_lt_iff; lia).
    lia.
Qed.

Lemma round_units_ge_pow (N e : Z) :
  0 < N -> -16445 <= Zdigits2 N + e - 64 -> 2 ^ (Zdigits2 N - 1) <= round_units N e.
Proof.
  intros HN Hnorm. pose proof (Zdigits2_bounds N HN) as [Hl Hu].
  pose proof (Zdigits2_nonneg N) as Hd.
  assert (Zdigits2 N <> 0) by (destruct N; cbn in *; lia).
  unfold round_units. rewrite fexp_eq.
  replace (Z.max (Zdigits2 N + e - 64) (-16445)) with (Zdigits2 N + e - 64) by lia.
  destruct (Z.leb_spec (Zdigits2 N + e - 64) e) as [Hle|Hgt]; [lia|].
  set (k := Zdigits2 N + e - 64 - e). assert (Hk : 0 < k) by (unfold k; lia).
  assert (Hkd : k <= Zdigits2 N - 1) by (unfold k; lia).
  assert (Hp : 0 < 2 ^ k) by pow2_pos.
  pose proof (rne_shift_bounds N k) as [Hb _].
  assert (Hq : 2 ^ (Zdigits2 N - 1 - k) <= N / 2 ^ k).
  { apply Z.div_le_lower_bound; [lia|].
    rewrite <- Z.pow_add_r by lia. replace (k + (Zdigits2 N - 1 - k)) with (Zdigits2 N - 1) by lia.
    exact Hl. }
  replace (2 ^ (Zdigits2 N - 1)) with (2 ^ (Zdigits2 N - 1 - k) * 2 ^ k)
    by (rewrite <- Z.pow_add_r by lia; f_equal; lia).
  apply Z.mul_le_mono_nonneg_r; lia.
Qed.

Lemma round_units_mono (N1 N2 e : Z) : 0 <= N1 <= N2 -> round_units N1 e <= round_units N2 e.
Proof.
  intros [H1 H12].
  destruct (Z.eq_dec N1 0) as [->|Hne]; [rewrite round_units_0; apply round_units_nonneg; lia|].
  pose proof (Zdigits2_mono N1 N2 ltac:(lia)) as Hd.
  destruct (Z.eq_dec (fexp LongDouble.prec LongDouble.emax (Zdigits2 N1 + e)) (fexp LongDouble.prec LongDouble.emax (Zdigits2 N2 + e)))
    as [HE|HE].
  - unfold round_units. rewrite <- HE.
    destruct (Z.leb_spec (fexp LongDouble.prec LongDouble.emax (Zdigits2 N1 + e)) e) as [Hle|Hgt]; [lia|].
    set (k := fexp LongDouble.prec LongDouble.emax (Zdigits2 N1 + e) - e).
    assert (Hp : 0 < 2 ^ k) by pow2_pos.
    apply Z.mul_le_mono_nonneg_r; [lia|]. apply rne_shift_mono; lia.
  - rewrite !fexp_eq in HE.
    assert (Hlt : Zdigits2 N1 < Zdigits2 N2) by lia.
    assert (Hnorm : -16445 <= Zdigits2 N2 + e - 64) by lia.
    pose proof (round_units_le_pow N1 e ltac:(lia)) as Hu.
    pose proof (round_units_ge_pow N2 e ltac:(lia) Hnorm) as Hl.
    pose proof (Zdigits2_nonneg N1).
    assert (2 ^ Zdigits2 N1 <= 2 ^ (Zdigits2 N2 - 1)) by (apply Z.pow_le_mono_r; lia).
    lia.
Qed.

Lemma round_units_shift (N e j : Z) :
  0 <= N -> 0 <= j -> round_units (N * 2 ^ j) (e - j) = round_units N e * 2 ^ j.
Proof.
  intros HN Hj.
  destruct (Z.eq_dec N 0) as [->|Hne]; [rewrite Z.mul_0_l, !round_units_0; reflexivity|].
  assert (Hp : 0 < 2 ^ j) by pow2_pos.
  unfold round_units. rewrite Zdigits2_mul_pow2 by lia.
  replace (Zdigits2 N + j + (e - j)) with (Zdigits2 N + e) by lia.
  set (E := fexp LongDouble.prec LongDouble.emax (Zdigits2 N + e)).
  destruct (Z.leb_spec E (e - j)) as [H1|H1];
    destruct (Z.leb_spec E e) as [H2|H2]; try lia.
  - set (k := E - (e - j)). assert (Hk : 0 < k <= j) by (unfold k; lia).
    assert (Hpk : 0 < 2 ^ k) by pow2_pos.
    assert (Hdiv : N * 2 ^ j = (N * 2 ^ (j - k)) * 2 ^ k).
    { rewrite <- Z.mul_assoc, <- Z.pow_add_r by lia. do 2 f_equal. lia. }
    rewrite rne_shift_exact; [|lia|rewrite Hdiv; apply Z.mod_mul; lia].
    rewrite Hdiv at 1. rewrite Z.div_mul by lia. lia.
  - replace (E - (e - j)) with (E - e + j) by lia.
    rewrite rne_shift_scale by lia.
    rewrite Z.pow_add_r by lia. lia.
Qed.

Lemma round_units_exact (N e : Z) :
  0 <= N -> Zdigits2 N <= 64 -> -16445 <= e -> round_units N e = N.
Proof.
  intros HN Hd He. unfold round_units. rewrite fexp_eq.
  destruct (Z.leb_spec (Z.max (Zdigits2 N + e - 64) (-16445)) e); [reflexivity|lia].
Qed.

Lemma floor_val_round_mant (N e : Z) :
  floor_val (round_mant N e) = Z.shiftl (round_units N e) e.
Proof.
  unfold floor_val, round_mant, round_units.
  set (E := fexp LongDouble.prec LongDouble.emax (Zdigits2 N + e)).
  destruct (Z.leb_spec E e) as [Hle|Hgt]; [reflexivity|].
  set (k := E - e). assert (Hk : 0 < k) by (unfold k; lia).
  rewrite <- (Z.shiftl_mul_pow2 _ k) by lia.
  rewrite Z.shiftl_shiftl by lia. replace (k + e) with E by (unfold k; lia).
  destruct (Z.eqb_spec (rne_shift N k) (2 ^ 64)) as [H64|H64]; [|reflexivity].
  rewrite H64. cbn [fst snd].
  change (2 ^ 63) with (Z.shiftl 1 63). change (2 ^ 64) with (Z.shiftl 1 64).
  rewrite !Z.shiftl_shiftl by lia. f_equal. lia.
Qed.

Lemma floor_val_shift (N e j : Z) :
  0 <= N -> 0 <= j ->
  floor_val (round_mant (N * 2 ^ j) (e - j)) = floor_val (round_mant N e).
Proof.
  intros HN Hj. rewrite !floor_val_round_mant, round_units_shift by assumption.
  rewrite <- Z.shiftl_mul_pow2 by lia.
  rewrite Z.shiftl_shiftl by lia. f_equal. lia.
Qed.

Lemma floor_val_mono (N1 N2 e : Z) :
  0 <= N1 <= N2 ->
  floor_val (round_mant N1 e) <= floor_val (round_mant N2 e).
Proof.
  intros H. rewrite !floor_val_round_mant. apply shiftl_mono, round_units_mono, H.
Qed.

Lemma floor_val_nonneg (me : Z * Z) : 0 <= fst me -> 0 <= floor_val me.
Proof. intros H. unfold floor_val. now apply Z.shiftl_nonneg. Qed.

Lemma floor_val_overflow (m : positive) (e : Z) :
  LongDouble.emax - LongDouble.prec < e -> 2 ^ 63 <= floor_val (Z.pos m, e).
Proof.
  unfold LongDouble.emax, LongDouble.prec, floor_val. cbn [fst snd]. intros He.
  rewrite Z.shiftl_mul_pow2 by lia.
  assert (2 ^ 63 <= 2 ^ e) by (apply Z.pow_le_mono_r; lia).
  nia.
Qed.

(** ** Conversions between ticks and [long double] *)

Lemma of_rep_0 : LongDouble.of_rep 0 = S754_zero false.
Proof. reflexivity. Qed.

Lemma norm_shift_range (d : Z) :
  0 < d < 2 ^ 64 -> 0 <= norm_shift d <= 63.
Proof.
  intros [Hl Hu]. unfold norm_shift.
  pose proof (Zdigits2_le d 64 ltac:(lia) ltac:(lia)).
  assert (Zdigits2 d <> 0) by (destruct d; cbn in *; lia).
  pose proof (Zdigits2_nonneg d). lia.
Qed.

Lemma binary_round_norm (s : bool) (p : positive) :
  Z.pos p < 2 ^ 64 ->
  binary_round LongDouble.prec LongDouble.emax s p 0
  = S754_finite s (Z.to_pos (Z.pos p * 2 ^ norm_shift (Z.pos p)))
      (- norm_shift (Z.pos p)).
Proof.
  intros Hu. pose proof (norm_shift_range (Z.pos p) ltac:(lia)) as Hj.
  unfold binary_round.
  set (j := norm_shift (Z.pos p)) in *.
  assert (Hj' : j = 64 - Z.pos (digits2_pos p)) by reflexivity.
  assert (Hal : exists mz, shl_align p 0 (fexp LongDouble.prec LongDouble.emax (Z.pos (digits2_pos p) + 0))
                           = (mz, - j) /\ Z.pos mz = Z.pos p * 2 ^ j).
  { unfold shl_align. rewrite fexp_eq.
    destruct (Z.max (Z.pos (digits2_pos p) + 0 - 64) (-16445) - 0) as [|k|k] eqn:Hk.
    - exists p. split; [f_equal; lia|]. replace j with 0 by lia. lia.
    - lia.
    - exists (Pos.iter xO p k). split; [f_equal; lia|].
      rewrite iter_xO. f_equal. f_equal. lia. }
  destruct Hal as (mz & -> & Hmz).
  rewrite bra_spec by lia. unfold round_mant.
  assert (Hd : Zdigits2 (Z.pos mz) = 64).
  { rewrite Hmz, Zdigits2_mul_pow2 by lia. cbn [Zdigits2]. lia. }
  rewrite Hd, fexp_eq.
  replace (Z.max (64 + - j - 64) (-16445)) with (- j) by lia.
  rewrite Z.leb_refl. unfold of_round. cbn [fst snd].
  replace (- j <=? LongDouble.emax - LongDouble.prec) with true
    by (symmetry; apply Z.leb_le; unfold LongDouble.emax, LongDouble.prec; lia).
  rewrite <- Hmz. reflexivity.
Qed.

Lemma of_rep_pos (d : Z) :
  0 < d < 2 ^ 64 ->
  LongDouble.of_rep d = S754_finite false (Z.to_pos (d * 2 ^ norm_shift d)) (- norm_shift d).
Proof.
  intros [Hl Hu]. destruct d as [|p|p]; try lia.
  apply binary_round_norm. exact Hu.
Qed.

Lemma of_rep_neg (d : Z) :
  0 < d < 2 ^ 64 ->
  LongDouble.of_rep (- d) = S754_finite true (Z.to_pos (d * 2 ^ norm_shift d)) (- norm_shift d).
Proof.
  intros [Hl Hu]. destruct d as [|p|p]; try lia.
  apply binary_round_norm. exact Hu.
Qed.

Lemma of_rep_real (d : Z) :
  Int64.in_range d = true -> LongDouble.is_real (LongDouble.of_rep d) = true.
Proof.
  intros H. apply in_range_bounds in H.
  destruct (Z.lt_trichotomy d 0) as [Hn|[->|Hp]].
  - replace d with (- - d) by lia. rewrite of_rep_neg by lia. reflexivity.
  - reflexivity.
  - rewrite of_rep_pos by lia. reflexivity.
Qed.

Lemma one_eq : LongDouble.one = S754_finite false (2 ^ 63) (-63).
Proof. reflexivity. Qed.

Lemma to_rep_of_round_neg (me : Z * Z) :
  0 <= fst me ->
  LongDouble.to_rep (of_round true me) = - Z.min (floor_val me) (2 ^ 63).
Proof.
  intros Hm. destruct me as [m e]. cbn [fst] in Hm.
  unfold of_round. cbn [fst snd].
  destruct m as [|p|p]; [| |lia].
  - unfold floor_val. cbn [fst snd LongDouble.to_rep].
    rewrite Z.shiftl_0_l. reflexivity.
  - destruct (Z.leb_spec e (LongDouble.emax - LongDouble.prec)) as [He|He].
    + pose proof (floor_val_nonneg (Z.pos p, e) ltac:(cbn; lia)) as Hf.
      unfold floor_val in *. cbn [fst snd] in *.
      cbn [LongDouble.to_rep cond_Zopp]. unfold LongDouble.trunc_mag.
      unfold Int64.in_range, Int64.min_signed, Int64.max_signed.
      destruct (Z.leb_spec (- 2 ^ 63) (- Z.shiftl (Z.pos p) e));
        destruct (Z.leb_spec (- Z.shiftl (Z.pos p) e) (2 ^ 63 - 1));
        cbn [andb]; lia.
    + pose proof (floor_val_overflow p e He). cbn [LongDouble.to_rep].
      unfold Int64.min_signed. lia.
Qed.

Lemma to_rep_of_round_pos (me : Z * Z) :
  0 <= fst me ->
  LongDouble.to_rep (of_round false me)
  = if floor_val me <=? 2 ^ 63 - 1 then floor_val me else - 2 ^ 63.
Proof.
  intros Hm. destruct me as [m e]. cbn [fst] in Hm.
  unfold of_round. cbn [fst snd].
  destruct m as [|p|p]; [| |lia].
  - unfold floor_val. cbn [fst snd LongDouble.to_rep].
    rewrite Z.shiftl_0_l. reflexivity.
  - destruct (Z.leb_spec e (LongDouble.emax - LongDouble.prec)) as [He|He].
    + pose proof (floor_val_nonneg (Z.pos p, e) ltac:(cbn; lia)) as Hf.
      unfold floor_val in *. cbn [fst snd] in *.
      cbn [LongDouble.to_rep cond_Zopp]. unfold LongDouble.trunc_mag.
      unfold Int64.in_range, Int64.min_signed, Int64.max_signed.
      destruct (Z.leb_spec (- 2 ^ 63) (Z.shiftl (Z.pos p) e));
        destruct (Z.leb_spec (Z.shiftl (Z.pos p) e) (2 ^ 63 - 1));
        cbn [andb]; lia.
    + pose proof (floor_val_overflow p e He) as Hf. cbn [LongDouble.to_rep].
      destruct (Z.leb_spec (floor_val (Z.pos p, e)) (2 ^ 63 - 1)); [lia|].
      reflexivity.
Qed.

(** ** Products of a tick count and a rate *)

Lemma mul_zero_l (s : bool) (x : long_double) :
  LongDouble.is_real x = true ->
  LongDouble.to_rep (LongDouble.mul (S754_zero s) x) = 0.
Proof. destruct x; simpl; intros H; try discriminate; reflexivity. Qed.

Lemma elapsed_0 (x : long_double) :
  LongDouble.is_real x = true -> elapsed 0 x = 0.
Proof.
  intros H. unfold elapsed, duration_cast, duration_mul.
  rewrite of_rep_0. now apply mul_zero_l.
Qed.

(** Why continuity asks for a real new rate: zero times infinity is not
    a number, and its conversion to ticks has no defined result. *)
Lemma zero_times_infinity :
  duration_mul 0 ld_infinity = S754_nan.
Proof. reflexivity. Qed.

(** The product of a positive tick count and a finite rate, before the
    conversion back to ticks. *)
Lemma duration_mul_pos (d : Z) (sr : bool) (mr : positive) (er : Z) :
  0 < d < 2 ^ 64 ->
  duration_mul d (S754_finite sr mr er)
  = of_round sr (round_mant (d * Z.pos mr * 2 ^ norm_shift d)
                            (er - norm_shift d)).
Proof.
  intros Hd. pose proof (norm_shift_range d Hd) as Hj.
  unfold duration_mul, LongDouble.mul. rewrite (of_rep_pos d Hd).
  cbn [SFmul xorb].
  assert (Hp : 0 < 2 ^ norm_shift d) by pow2_pos.
  rewrite bra_spec by lia.
  rewrite Pos2Z.inj_mul, Z2Pos.id by nia.
  f_equal. f_equal; lia.
Qed.

Lemma scaled_floor_0 (mr : positive) (er : Z) : scaled_floor 0 mr er = 0.
Proof.
  unfold scaled_floor. rewrite floor_val_round_mant, Z.mul_0_l, round_units_0.
  apply Z.shiftl_0_l.
Qed.

Lemma elapsed_negative_rate (d : Z) (mr : positive) (er : Z) :
  0 <= d < 2 ^ 64 ->
  elapsed d (S754_finite true mr er)
  = - Z.min (scaled_floor d mr er) (2 ^ 63).
Proof.
  intros [Hl Hu]. destruct (Z.eq_dec d 0) as [->|Hne].
  - rewrite scaled_floor_0. reflexivity.
  - unfold elapsed, duration_cast. rewrite duration_mul_pos by lia.
    pose proof (norm_shift_range d ltac:(lia)) as Hj.
    rewrite to_rep_of_round_neg by (apply round_mant_nonneg; nia).
    rewrite floor_val_shift by nia. reflexivity.
Qed.

Lemma elapsed_positive_rate (d : Z) (mr : positive) (er : Z) :
  0 <= d < 2 ^ 64 ->
  elapsed d (S754_finite false mr er)
  = if scaled_floor d mr er <=? 2 ^ 63 - 1
    then scaled_floor d mr er else - 2 ^ 63.
Proof.
  intros [Hl Hu]. destruct (Z.eq_dec d 0) as [->|Hne].
  - rewrite scaled_floor_0. reflexivity.
  - unfold elapsed, duration_cast. rewrite duration_mul_pos by lia.
    pose proof (norm_shift_range d ltac:(lia)) as Hj.
    rewrite to_rep_of_round_pos by (apply round_mant_nonneg; nia).
    rewrite floor_val_shift by nia. reflexivity.
Qed.

Lemma scaled_floor_mono (d1 d2 : Z) (mr : positive) (er : Z) :
  0 <= d1 <= d2 -> scaled_floor d1 mr er <= scaled_floor d2 mr er.
Proof. intros H. apply floor_val_mono. nia. Qed.

(** At a negative rate the truncated product never grows with the tick
    count. *)
Lemma elapsed_negative_rate_mono (d1 d2 : Z) (r : long_double) :
  LongDouble.is_negative r = true ->
  0 <= d1 <= d2 -> d2 < 2 ^ 64 ->
  elapsed d2 r <= elapsed d1 r <= 0.
Proof.
  intros Hr H12 Hu. destruct r as [s|s| |s mr er]; try discriminate.
  destruct s; [|discriminate].
  rewrite !elapsed_negative_rate by lia.
  pose proof (scaled_floor_mono d1 d2 mr er H12).
  pose proof (scaled_floor_mono 0 d1 mr er ltac:(lia)) as H0.
  rewrite scaled_floor_0 in H0. lia.
Qed.

(** Multiplying a tick count by the rate 1 is exact. *)
Lemma elapsed_one (d : Z) : 0 <= d < 2 ^ 63 -> elapsed d LongDouble.one = d.
Proof.
  intros [Hl Hu]. rewrite one_eq, elapsed_positive_rate by lia.
  unfold scaled_floor. change (-63) with (0 - 63).
  change (Z.pos (2 ^ 63)) with (2 ^ 63).
  rewrite floor_val_shift, floor_val_round_mant by lia.
  rewrite round_units_exact; [|lia|apply Zdigits2_le; lia|lia].
  rewrite Z.shiftl_0_r.
  destruct (Z.leb_spec d (2 ^ 63 - 1)); [reflexivity|lia].
Qed.

(** At the rate zero nothing elapses. *)
Lemma elapsed_zero_rate (d : Z) (r : long_double) :
  Int64.in_range d = true -> LongDouble.is_zero r = true -> elapsed d r = 0.
Proof.
  intros Hd Hr. pose proof (of_rep_real d Hd) as Hreal.
  unfold elapsed, duration_cast, duration_mul, LongDouble.mul.
  destruct r as [s|s| |s mr er]; try discriminate.
  destruct (LongDouble.of_rep d); try discriminate; reflexivity.
Qed.

(** For a rate [m * 2^e] with [e < 0] and a product inside the 64-bit
    range, the truncated product is less than two ticks away from the
    exact product, both taken in units of [2^e]. *)
Lemma elapsed_within_two_ticks (d : Z) (s : bool) (mr : positive) (er : Z) :
  0 <= d < 2 ^ 64 ->
  er < 0 ->
  d * Z.pos mr <= (2 ^ 63 - 1) * 2 ^ (- er) ->
  Z.abs (elapsed d (S754_finite s mr er) * 2 ^ (- er)
         - cond_Zopp s (d * Z.pos mr))
  < 2 * 2 ^ (- er).
Proof.
  intros Hd He Hx. set (f := - er) in *. set (N := d * Z.pos mr) in *.
  assert (HN : 0 <= N) by (unfold N; nia).
  assert (Hpf : 0 < 2 ^ f) by pow2_pos.
  (* the rounded product, in units of 2^er *)
  assert (Hmax : round_units ((2 ^ 63 - 1) * 2 ^ f) er = (2 ^ 63 - 1) * 2 ^ f).
  { replace er with (0 - f) by lia. rewrite round_units_shift by lia.
    rewrite round_units_exact; [reflexivity|lia| |lia].
    apply Zdigits2_le; lia. }
  pose proof (round_units_mono N ((2 ^ 63 - 1) * 2 ^ f) er ltac:(lia)) as Hup.
  rewrite Hmax in Hup.
  pose proof (round_units_nonneg N er HN) as Hlo.
  assert (Herr : 4 * Z.abs (round_units N er - N) <= 2 ^ f).
  { unfold round_units in *. rewrite fexp_eq in *.
    set (E := Z.max (Zdigits2 N + er - 64) (-16445)) in *.
    destruct (Z.leb_spec E er) as [Hle|Hgt]; [rewrite Z.sub_diag; cbn; lia|].
    assert (Hdg : Zdigits2 N <= 63 + f).
    { apply Zdigits2_le; [lia|]. split; [lia|].
      rewrite Z.pow_add_r by lia. nia. }
    pose proof (rne_shift_error N (E - er) ltac:(lia)) as Hr.
    assert (Hk : E - er - 1 <= f - 2) by lia.
    assert (0 <= f - 2) by lia.
    assert (2 ^ (E - er - 1) <= 2 ^ (f - 2)) by (apply Z.pow_le_mono_r; lia).
    assert (2 ^ f = 4 * 2 ^ (f - 2)).
    { change 4 with (2 ^ 2). rewrite <- Z.pow_add_r by lia. f_equal. lia. }
    lia. }
  assert (Hfl : scaled_floor d mr er = round_units N er / 2 ^ f).
  { unfold scaled_floor. fold N. rewrite floor_val_round_mant.
    rewrite Z.shiftl_div_pow2 by lia. reflexivity. }
  pose proof (Z.div_mod (round_units N er) (2 ^ f) ltac:(lia)) as D.
  pose proof (Z.mod_pos_bound (round_units N er) (2 ^ f) ltac:(lia)) as B.
  assert (Hq : 0 <= scaled_floor d mr er <= 2 ^ 63 - 1).
  { rewrite Hfl. split; [apply Z.div_pos; lia|].
    apply Z.div_le_upper_bound; lia. }
  assert (Hel : elapsed d (S754_finite s mr er)
                = cond_Zopp s (scaled_floor d mr er)).
  { destruct s.
    - rewrite elapsed_negative_rate by lia. cbn [cond_Zopp]. lia.
    - rewrite elapsed_positive_rate by lia.
      destruct (Z.leb_spec (scaled_floor d mr er) (2 ^ 63 - 1)); [reflexivity|lia]. }
  rewrite Hel, Hfl. destruct s; cbn [cond_Zopp]; nia.
Qed.

(** ** Sample products *)

(** Truncation is toward zero: -1.5 becomes -1. *)
Example elapsed_truncates_toward_zero : elapsed 3 ld_minus_half = -1.
Proof. reflexivity. Qed.

(** Five seconds at the rate 2.5, in nanoseconds. *)
Example elapsed_at_2_5 : elapsed 5000000000 ld_2_5 = 12500000000.
Proof. reflexivity. Qed.

(** One second at the rate -0.3: the rate is not a binary fraction and the
    product falls one tick short of -300000000. *)
Example elapsed_at_minus_0_3 : elapsed 1000000000 ld_minus_0_3 = -299999999.
Proof. reflexivity. Qed.

(** A product outside the 64-bit range. *)
Example elapsed_out_of_range :
  elapsed (2 ^ 62) (LongDouble.of_rep 4) = Int64.min_signed.
Proof. reflexivity. Qed.

(** * The claims *)

(** ** Continuity and the formula of [now()] *)

(** C1. Logical time is continuous across a rate change: when [now()],
    [set_speed(newRate)] and [now()] again all see the same monotonic
    reading, the two time points are equal, whatever the state and the
    (real) new rate. *)
Theorem continuity_across_rate_change (m : machine) (newRate : long_double)
    (t : rep) :
  LongDouble.is_real newRate = true ->
  next_reading (source m) = t ->
  next_reading (advance (source m)) = t ->
  next_reading (advance (advance (source m))) = t ->
  let before := fst (now m) in
  let m1 := snd (now m) in
  let m2 := snd (set_speed newRate m1) in
  let after := fst (now m2) in
  after = before.
Proof.
  intros Hreal H0 H1 H2 before m1 m2 after.
  subst before m1 m2 after.
  rewrite (now_run m). cbn [fst snd].
  rewrite set_speed_run. cbn [fst snd self source].
  rewrite now_run. cbn [fst snd self source].
  rewrite H0, H1, H2. f_equal.
  unfold logical at 1. unfold resync. cbn [m_sync m_speed fst snd time_since_epoch].
  rewrite sub_diag.
  change (duration_cast (duration_mul 0 newRate)) with (elapsed 0 newRate).
  rewrite (elapsed_0 _ Hreal).
  unfold duration_add, Int64.add. rewrite Z.add_0_r.
  apply wrap_small. unfold logical, duration_add, Int64.add. apply wrap_range.
Qed.

Lemma continuity_across_rate_change_witness :
  let m := snd (set_speed ld_minus_0_3
                  (construct default_speed (source_of [3; 40; 77; 77; 77] 77))) in
  fst (now (snd (set_speed ld_2_5 (snd (now m))))) = fst (now m).
Proof.
  intros m.
  apply (continuity_across_rate_change m ld_2_5 77); reflexivity.
Defined.

(** C2. [now()] reads the monotonic source exactly once and returns
    [syncLogical + (t - syncMonotonic) * rate], the product being taken in
    [long double] and truncated to ticks afterwards (3 ticks at the rate
    2.5 are 7 ticks); this is the formula [logical_time] whenever the
    64-bit tick arithmetic does not overflow. *)
Theorem now_correct (m : machine) :
  let syncMonotonic := time_since_epoch (fst (m_sync (self m))) in
  let syncLogical := time_since_epoch (snd (m_sync (self m))) in
  let rate := m_speed (self m) in
  let t := next_reading (source m) in
  Int64.in_range (t - syncMonotonic) = true ->
  Int64.in_range (logical_time syncMonotonic syncLogical rate t) = true ->
  time_since_epoch (fst (now m))
  = logical_time syncMonotonic syncLogical rate t
  /\ source (snd (now m)) = advance (source m)
  /\ reads (source (snd (now m))) = S (reads (source m))
  /\ logical_time 0 0 ld_2_5 3 = 7.
Proof.
  intros sM sL rate t Hd Hl. rewrite now_run. cbn [fst snd source time_since_epoch].
  split; [|split; [|split]; reflexivity].
  unfold logical, duration_add, Int64.add, Int64.sub.
  fold sM sL rate t. rewrite (wrap_small _ Hd).
  unfold duration_cast, duration_mul.
  apply wrap_small. exact Hl.
Qed.

Lemma now_correct_witness :
  let m := snd (set_speed ld_2_5
                  (construct default_speed (source_of [1000; 1200; 1203] 0))) in
  time_since_epoch (fst (now m)) = logical_time 1200 1200 ld_2_5 1203
  /\ source (snd (now m)) = advance (source m)
  /\ reads (source (snd (now m))) = S (reads (source m))
  /\ logical_time 0 0 ld_2_5 3 = 7.
Proof.
  intros m. apply (now_correct m); reflexivity.
Defined.

(** C3. [set_speed(newRate)] takes the pair [(monotonicNow, logicalNow)]
    that [impl_now] computes with the rate still in force (the value
    [now()] returns), makes it the synchronisation point, and stores the
    new rate; the captured pair is the same whatever the new rate is. *)
Theorem set_speed_step (newRate : long_double) (m : machine) :
  let m' := snd (set_speed newRate m) in
  m_sync (self m') = fst (impl_now m)
  /\ fst (m_sync (self m')) = Build_time_point (next_reading (source m))
  /\ snd (m_sync (self m')) = fst (now m)
  /\ m_speed (self m') = newRate
  /\ source m' = advance (source m)
  /\ (forall other : long_double,
        m_sync (self (snd (set_speed other m))) = m_sync (self m')).
Proof.
  intros m'. subst m'. rewrite set_speed_run, impl_now_run, now_run.
  cbn. repeat split.
Qed.

(** ** Durations across rate changes *)

Lemma logical_resync (s : stopwatch) (t1 : rep) (r1 : long_double) (t : rep) :
  logical (resync s t1 r1) t
  = Int64.wrap (logical s t1 + elapsed (Int64.sub t t1) r1).
Proof. reflexivity. Qed.

Lemma logical_apply_changes (rest : list (rep * long_double)) :
  forall (s : stopwatch) (t1 : rep) (r1 : long_double) (t_end : rep),
    logical (apply_changes s ((t1, r1) :: rest)) t_end
    = Int64.wrap (logical s t1 + segment_sum t1 r1 rest t_end).
Proof.
  induction rest as [|[t2 r2] rest IH]; intros s t1 r1 t_end.
  - cbn [apply_changes segment_sum]. apply logical_resync.
  - change (apply_changes s ((t1, r1) :: (t2, r2) :: rest))
      with (apply_changes (resync s t1 r1) ((t2, r2) :: rest)).
    rewrite IH, logical_resync, wrap_add_l.
    cbn [segment_sum]. f_equal. lia.
Qed.

(** C4. The duration between two time points taken before and after one
    or more rate changes is the sum, over the segments between them, of
    the segment's monotonic duration times the segment's rate, each
    product rounded as [elapsed] rounds it ([elapsed_within_two_ticks]
    bounds that rounding), and the sum reduced to 64 bits. The first
    segment runs from the first time point to the first rate change; the
    stopwatch measures it from its synchronisation point, so it enters as
    the difference of its two ends, and as a single product when the
    first time point is taken at the synchronisation point. The duration
    is not the total monotonic time times the last rate: in the run of
    the usage example the former is 7.5 s and the latter 0. *)
Theorem duration_across_segments (m : machine) (r1 : long_double)
    (rates : list long_double) :
  let src := source m in
  let k := reads src in
  let syncMonotonic := time_since_epoch (fst (m_sync (self m))) in
  let r0 := m_speed (self m) in
  let tA := readings src k in
  let t1 := readings src (S k) in
  let changes := combine (readings_from src (S (S k)) (length rates)) rates in
  let tB := readings src (S (S (length rates + k))) in
  fst (measure (r1 :: rates) m)
  = Int64.wrap
      ((elapsed (Int64.sub t1 syncMonotonic) r0
        - elapsed (Int64.sub tA syncMonotonic) r0)
       + segment_sum t1 r1 changes tB)
  /\ (tA = syncMonotonic ->
      LongDouble.is_real r0 = true ->
      fst (measure (r1 :: rates) m)
      = Int64.wrap (segment_sum tA r0 ((t1, r1) :: changes) tB))
  /\ (fst (measure [ld_minus_one; ld_2_5; ld_zero]
             (construct default_speed usage_source))
      = 7500000000
      /\ elapsed (15000000000 - 0) ld_zero = 0).
Proof.
  intros src k sM r0 tA t1 changes tB.
  assert (General :
            fst (measure (r1 :: rates) m)
            = Int64.wrap
                ((elapsed (Int64.sub t1 sM) r0 - elapsed (Int64.sub tA sM) r0)
                 + segment_sum t1 r1 changes tB));
    [|split; [exact General|split; [|split; vm_compute; reflexivity]];
      intros HA Hreal; rewrite General, HA, sub_diag, (elapsed_0 _ Hreal);
      cbn [segment_sum]; f_equal; lia].
  unfold measure. unfold bind at 1. rewrite now_run.
  unfold bind at 1. rewrite set_speeds_run. cbn [self source].
  unfold bind at 1. rewrite now_run. cbn [self source fst ret].
  unfold time_point_sub. cbn [time_since_epoch].
  cbn [length]. rewrite readings_from_S. cbn [combine].
  rewrite logical_apply_changes.
  unfold next_reading, advance_by. cbn [reads readings].
  change (readings_from (advance (source m))) with (readings_from src).
  change (readings (advance (source m))) with (readings src).
  change (reads (advance (source m))) with (S k).
  replace (S (length rates) + S k)%nat with (S (S (length rates + k))) by lia.
  fold src k tA t1 changes tB.
  unfold Int64.sub at 1. rewrite wrap_sub_l.
  unfold logical at 2. unfold duration_add, Int64.add.
  rewrite wrap_sub_r, <- Z.add_sub_assoc.
  unfold logical, duration_add, Int64.add. rewrite wrap_add_l.
  fold sM r0. unfold elapsed. f_equal. lia.
Qed.

Lemma duration_across_segments_witness :
  fst (measure [ld_minus_one; ld_2_5; ld_zero]
         (construct default_speed usage_source))
  = Int64.wrap
      (segment_sum 0 LongDouble.one
         [(0, ld_minus_one); (5000000000, ld_2_5); (10000000000, ld_zero)]
         15000000000).
Proof.
  apply (duration_across_segments (construct default_speed usage_source)
           ld_minus_one [ld_2_5; ld_zero]); reflexivity.
Defined.

(** ** Effects and successive readings *)

(** C5. [now()] leaves the synchronisation point and the rate as they
    were; of the member functions only [set_speed] changes the
    synchronisation point. *)
Theorem now_no_side_effect (m : machine) :
  self (snd (now m)) = self m
  /\ (forall c : call,
        self (snd (invoke c m)) = self m \/ exists x, c = CallSetSpeed x).
Proof.
  split; [reflexivity|].
  intros [|x|]; [left; reflexivity | right; now exists x | left; reflexivity].
Qed.

(** C6, as stated, fails for negative rates: the product is truncated to
    whole ticks, so two readings one tick apart can return the same time
    point. At the rate -1/2, constructed and resynchronised at 1000, the
    readings 1002 and 1003 both give 999. *)
Lemma strictly_decreasing_counterexample :
  ~ (forall m : machine,
        LongDouble.is_negative (m_speed (self m)) = true ->
        next_reading (source m) < next_reading (advance (source m)) ->
        time_since_epoch (fst (now (snd (now m))))
        < time_since_epoch (fst (now m))).
Proof.
  intros H.
  specialize (H (snd (set_speed ld_minus_half
                        (construct default_speed
                           (source_of [1000; 1000; 1002; 1003] 1003))))).
  specialize (H eq_refl eq_refl).
  vm_compute in H. discriminate H.
Qed.

(** C6, amended. At the rate zero two successive [now()] calls return
    equal time points. At a negative rate, with readings at or after the
    synchronisation point and logical time inside the 64-bit range, the
    later call never returns a greater time point than the earlier one
    (equal when both products truncate to the same tick). [now()] is not
    monotonically increasing: at the rate -1 a later call returns a
    smaller time point. *)
Theorem successive_readings_by_sign (m : machine) :
  let syncMonotonic := time_since_epoch (fst (m_sync (self m))) in
  let syncLogical := time_since_epoch (snd (m_sync (self m))) in
  let rate := m_speed (self m) in
  let t1 := next_reading (source m) in
  let t2 := next_reading (advance (source m)) in
  let first := time_since_epoch (fst (now m)) in
  let second := time_since_epoch (fst (now (snd (now m)))) in
  (LongDouble.is_zero rate = true -> second = first)
  /\ (LongDouble.is_negative rate = true ->
      syncMonotonic <= t1 <= t2 ->
      Int64.in_range (t2 - syncMonotonic) = true ->
      Int64.in_range syncLogical = true ->
      Int64.in_range (logical_time syncMonotonic syncLogical rate t2) = true ->
      second <= first)
  /\ (let m' := snd (set_speed ld_minus_one
                       (construct default_speed
                          (source_of [1000; 1000; 1002; 1003] 1003))) in
      time_since_epoch (fst (now m')) = 998
      /\ time_since_epoch (fst (now (snd (now m')))) = 997).
Proof.
  intros sM sL rate t1 t2 first second.
  assert (E1 : first = Int64.wrap (sL + elapsed (Int64.sub t1 sM) rate))
    by reflexivity.
  assert (E2 : second = Int64.wrap (sL + elapsed (Int64.sub t2 sM) rate))
    by reflexivity.
  split; [|split].
  - intros Hz. rewrite E1, E2.
    rewrite !elapsed_zero_rate by (assumption || apply wrap_range).
    reflexivity.
  - intros Hneg [Hs1 H12] Hd HL Hl2.
    pose proof Hd as Hd'. apply in_range_bounds in Hd'.
    assert (Hd1 : Int64.in_range (t1 - sM) = true)
      by (apply in_range_bounds; lia).
    unfold Int64.sub in E1, E2.
    rewrite (wrap_small _ Hd1) in E1. rewrite (wrap_small _ Hd) in E2.
    pose proof (elapsed_negative_rate_mono (t1 - sM) (t2 - sM) rate Hneg
                  ltac:(lia) ltac:(lia)) as [Hmono Hnonpos].
    unfold logical_time in Hl2.
    change (LongDouble.to_rep (LongDouble.mul (LongDouble.of_rep (t2 - sM)) rate))
      with (elapsed (t2 - sM) rate) in Hl2.
    rewrite (wrap_small _ Hl2) in E2.
    assert (Hl1 : Int64.in_range (sL + elapsed (t1 - sM) rate) = true).
    { apply in_range_bounds in HL. apply in_range_bounds in Hl2.
      apply in_range_bounds. lia. }
    rewrite (wrap_small _ Hl1) in E1. lia.
  - split; vm_compute; reflexivity.
Qed.

Lemma successive_readings_by_sign_witness :
  let m := snd (set_speed ld_minus_0_3
                  (construct default_speed
                     (source_of [1000; 1000; 1002; 1009] 1009))) in
  time_since_epoch (fst (now (snd (now m)))) <= time_since_epoch (fst (now m)).
Proof.
  intros m.
  apply (successive_readings_by_sign m);
    [reflexivity | cbn; lia | reflexivity | reflexivity | reflexivity].
Defined.

(** C7. After [set_speed(x)], [speed()] returns [x] itself, for every
    [long double] [x]; [speed()] changes neither the object nor the
    clock. *)
Theorem speed_after_set_speed (x : long_double) (m : machine) :
  fst (speed (snd (set_speed x m))) = x
  /\ snd (speed m) = m.
Proof. split; reflexivity. Qed.

(** ** Construction, failure, determinism *)

(** C8. A stopwatch constructed with the default rate 1 is aligned with
    the monotonic source: [now()] at a reading [t] at or after the reading
    of the constructor returns [t] itself, the source's own time since
    epoch, and so agrees with it within one tick. *)
Theorem default_alignment (src : steady_source) :
  let t0 := next_reading src in
  let m := construct default_speed src in
  let t := next_reading (source m) in
  t0 <= t ->
  Int64.in_range (t - t0) = true ->
  Int64.in_range t = true ->
  time_since_epoch (fst (now m)) = t
  /\ Z.abs (time_since_epoch (fst (now m)) - t) <= 1.
Proof.
  intros t0 m t Hle Hd Ht.
  assert (E : time_since_epoch (fst (now m)) = t).
  { subst m. rewrite now_run, construct_run.
    cbn [fst self source time_since_epoch]. fold t0.
    change (next_reading (advance src)) with t.
    unfold logical. cbn [m_sync m_speed fst snd time_since_epoch].
    unfold Int64.sub. rewrite (wrap_small _ Hd).
    change (duration_cast (duration_mul (t - t0) default_speed))
      with (elapsed (t - t0) LongDouble.one).
    apply in_range_bounds in Hd.
    rewrite elapsed_one by lia.
    unfold duration_add, Int64.add.
    replace (t0 + (t - t0)) with t by lia.
    now apply wrap_small. }
  split; [exact E|]. rewrite E, Z.sub_diag. cbn. lia.
Qed.

Lemma default_alignment_witness :
  let m := construct default_speed (source_of [1000; 123456789] 0) in
  time_since_epoch (fst (now m)) = 123456789
  /\ Z.abs (time_since_epoch (fst (now m)) - 123456789) <= 1.
Proof.
  intros m.
  apply (default_alignment (source_of [1000; 123456789] 0));
    [cbn; lia | reflexivity | reflexivity].
Defined.

(** C9. The constructor and the three member functions return normally
    on every rate and every reading: each call yields a value of the
    declared kind and a successor state. A negative rate that drives
    logical time below the epoch is not reported either: the time point
    is returned like any other. *)
Theorem operations_infallible :
  (forall (x : long_double) (src : steady_source),
      exists s : stopwatch,
        construct x src = {| self := s; source := advance src |})
  /\ (forall (c : call) (m : machine),
        exists (o : outcome) (m' : machine),
          invoke c m = (o, m') /\ returns c o = true)
  /\ time_since_epoch
       (fst (now (snd (set_speed ld_minus_one
                         (construct default_speed (source_of [5; 5; 100] 100))))))
     = -90.
Proof.
  split; [|split].
  - intros x src. eexists. apply construct_run.
  - intros [|x|] m; eexists; eexists; split; reflexivity.
  - vm_compute. reflexivity.
Qed.

Lemma same_readings_next (a b : steady_source) :
  same_readings a b -> next_reading a = next_reading b.
Proof. intros [Hk Hr]. unfold next_reading. rewrite Hk. apply Hr. Qed.

Lemma same_readings_advance (a b : steady_source) :
  same_readings a b -> same_readings (advance a) (advance b).
Proof. intros [Hk Hr]. split; simpl; [now f_equal | exact Hr]. Qed.

Lemma invoke_deterministic (c : call) (m1 m2 : machine) :
  self m1 = self m2 ->
  same_readings (source m1) (source m2) ->
  fst (invoke c m1) = fst (invoke c m2)
  /\ self (snd (invoke c m1)) = self (snd (invoke c m2))
  /\ same_readings (source (snd (invoke c m1))) (source (snd (invoke c m2))).
Proof.
  intros Hs Hr. pose proof (same_readings_next _ _ Hr) as Hn.
  pose proof (same_readings_advance _ _ Hr) as Ha.
  destruct c as [|x|]; cbn [invoke]; unfold bind, ret.
  - rewrite !now_run. cbn [fst snd self source]. rewrite Hs, Hn. auto.
  - rewrite !set_speed_run. cbn [fst snd self source]. rewrite Hs, Hn. auto.
  - rewrite !speed_run. cbn [fst snd self source]. rewrite Hs. auto.
Qed.

Lemma invoke_all_deterministic (cs : list call) :
  forall m1 m2 : machine,
    self m1 = self m2 ->
    same_readings (source m1) (source m2) ->
    fst (invoke_all cs m1) = fst (invoke_all cs m2)
    /\ self (snd (invoke_all cs m1)) = self (snd (invoke_all cs m2))
    /\ same_readings (source (snd (invoke_all cs m1)))
                     (source (snd (invoke_all cs m2))).
Proof.
  induction cs as [|c cs IH]; intros m1 m2 Hs Hr.
  - cbn. auto.
  - cbn [invoke_all]. unfold bind at 1 3 5 7 9 11.
    destruct (invoke_deterministic c m1 m2 Hs Hr) as (Ho & Hs' & Hr').
    destruct (invoke c m1) as [o1 n1], (invoke c m2) as [o2 n2].
    cbn [fst snd] in Ho, Hs', Hr'. subst o2.
    unfold bind. destruct (IH n1 n2 Hs' Hr') as (Hos & Hs'' & Hr'').
    destruct (invoke_all cs n1) as [os1 k1], (invoke_all cs n2) as [os2 k2].
    cbn [fst snd] in *. unfold ret. cbn [fst snd]. subst os2. auto.
Qed.

(** C10. The interface is deterministic: two stopwatches constructed with
    the same rate over sources that return the same readings, and driven by
    the same calls, return the same values from every call and end in the
    same state. *)
Theorem interface_deterministic (rate : long_double) (cs : list call)
    (src1 src2 : steady_source) :
  same_readings src1 src2 ->
  let r1 := invoke_all cs (construct rate src1) in
  let r2 := invoke_all cs (construct rate src2) in
  fst r1 = fst r2
  /\ self (snd r1) = self (snd r2)
  /\ same_readings (source (snd r1)) (source (snd r2)).
Proof.
  intros Hr r1 r2. subst r1 r2. apply invoke_all_deterministic.
  - rewrite !construct_run. cbn [self].
    now rewrite (same_readings_next _ _ Hr).
  - rewrite !construct_run. cbn [source]. now apply same_readings_advance.
Qed.

Lemma interface_deterministic_witness :
  let cs := [CallNow; CallSetSpeed ld_2_5; CallSpeed; CallNow] in
  fst (invoke_all cs (construct default_speed (source_of [1; 2; 3] 4)))
  = fst (invoke_all cs (construct default_speed (source_of [1; 2; 3; 4] 4))).
Proof.
  intros cs.
  apply (interface_deterministic default_speed cs
           (source_of [1; 2; 3] 4) (source_of [1; 2; 3; 4] 4)).
  split; [reflexivity|].
  intros i. do 5 (destruct i as [|i]; [reflexivity|]). reflexivity.
Defined.

(** * Further properties of the class and of the example program *)

(** ** Exact and monotone products *)

Lemma scaled_floor_scaled (d n j : Z) :
  0 <= d -> 0 < n -> 0 <= j ->
  scaled_floor d (Z.to_pos (n * 2 ^ j)) (- j) = round_units (d * n) 0.
Proof.
  intros Hd Hn Hj. unfold scaled_floor.
  assert (Hp : 0 < 2 ^ j) by pow2_pos.
  rewrite Z2Pos.id by nia.
  replace (d * (n * 2 ^ j)) with (d * n * 2 ^ j) by lia.
  replace (- j) with (0 - j) by lia.
  rewrite floor_val_shift, floor_val_round_mant by nia.
  apply Z.shiftl_0_r.
Qed.

Lemma elapsed_integer_rate (d k : Z) :
  0 <= d -> Int64.in_range d = true -> Int64.in_range k = true ->
  Z.abs (d * k) <= 2 ^ 63 - 1 ->
  elapsed d (LongDouble.of_rep k) = d * k.
Proof.
  intros Hd Hrd Hk Hprod. apply in_range_bounds in Hk.
  pose proof Hrd as Hrd'. apply in_range_bounds in Hrd'.
  destruct (Z.lt_trichotomy k 0) as [Hn|[->|Hp]].
  - replace k with (- - k) at 1 by lia.
    rewrite of_rep_neg by lia.
    pose proof (norm_shift_range (- k) ltac:(lia)) as Hj.
    rewrite elapsed_negative_rate by lia.
    rewrite scaled_floor_scaled by lia.
    rewrite round_units_exact; [lia|nia| |lia].
    apply Zdigits2_le; [lia|]. split; [nia|]. 
    assert (d * - k = Z.abs (d * k)) by (rewrite Z.abs_neq; nia). lia.
  - rewrite Z.mul_0_r. apply elapsed_zero_rate; [assumption|reflexivity].
  - rewrite of_rep_pos by lia.
    pose proof (norm_shift_range k ltac:(lia)) as Hj.
    rewrite elapsed_positive_rate by lia.
    rewrite scaled_floor_scaled by lia.
    assert (d * k = Z.abs (d * k)) by (rewrite Z.abs_eq; nia).
    rewrite round_units_exact; [|nia| |lia].
    + destruct (Z.leb_spec (d * k) (2 ^ 63 - 1)); [reflexivity|lia].
    + apply Zdigits2_le; [lia|]. split; [nia|lia].
Qed.

Lemma ld_2_5_eq : ld_2_5 = S754_finite false (Z.to_pos (5 * 2 ^ 61)) (- 62).
Proof. reflexivity. Qed.

Lemma elapsed_2_5 (d : Z) :
  0 <= d -> 5 * d < 2 ^ 64 -> elapsed d ld_2_5 = (5 * d) / 2.
Proof.
  intros Hd H5. rewrite ld_2_5_eq, elapsed_positive_rate by lia.
  assert (Hsf : scaled_floor d (Z.to_pos (5 * 2 ^ 61)) (- 62) = (5 * d) / 2).
  { unfold scaled_floor. rewrite Z2Pos.id by lia.
    replace (d * (5 * 2 ^ 61)) with (5 * d * 2 ^ 61) by lia.
    change (- 62) with (-1 - 61).
    rewrite floor_val_shift, floor_val_round_mant by lia.
    rewrite round_units_exact; [|lia|apply Zdigits2_le; lia|lia].
    rewrite Z.shiftl_div_pow2 by lia. reflexivity. }
  rewrite Hsf.
  assert (5 * d / 2 < 2 ^ 63) by (apply Z.div_lt_upper_bound; lia).
  destruct (Z.leb_spec (5 * d / 2) (2 ^ 63 - 1)); [reflexivity|lia].
Qed.

Lemma elapsed_positive_rate_mono (d1 d2 : Z) (r : long_double) :
  is_positive r = true ->
  0 <= d1 <= d2 -> d2 < 2 ^ 64 ->
  0 <= elapsed d2 r ->
  0 <= elapsed d1 r <= elapsed d2 r.
Proof.
  intros Hr H12 Hu Hok. destruct r as [s|s| |s mr er]; try discriminate.
  destruct s; [discriminate|].
  rewrite (elapsed_positive_rate d2) in Hok by lia.
  rewrite (elapsed_positive_rate d1), (elapsed_positive_rate d2) by lia.
  pose proof (scaled_floor_mono d1 d2 mr er H12).
  pose proof (scaled_floor_mono 0 d1 mr er ltac:(lia)) as H0.
  rewrite scaled_floor_0 in H0. revert Hok.
  destruct (Z.leb_spec (scaled_floor d2 mr er) (2 ^ 63 - 1)); [|lia].
  destruct (Z.leb_spec (scaled_floor d1 mr er) (2 ^ 63 - 1)); lia.
Qed.

(** ** The value of [impl_now], by rate *)

Lemma logical_eq (s : stopwatch) (t : rep) :
  logical s t
  = Int64.wrap (time_since_epoch (snd (m_sync s))
                + elapsed (Int64.sub t (time_since_epoch (fst (m_sync s))))
                    (m_speed s)).
Proof. reflexivity. Qed.

Lemma logical_range (s : stopwatch) (t : rep) :
  Int64.in_range (logical s t) = true.
Proof. rewrite logical_eq. apply wrap_range. Qed.

Lemma logical_zero_rate (s : stopwatch) (t : rep) :
  LongDouble.is_zero (m_speed s) = true ->
  logical s t = Int64.wrap (time_since_epoch (snd (m_sync s))).
Proof.
  intros Hz. rewrite logical_eq, elapsed_zero_rate, Z.add_0_r;
    [reflexivity | apply wrap_range | exact Hz].
Qed.

Lemma logical_integer_rate (s : stopwatch) (k t : Z) :
  m_speed s = LongDouble.of_rep k ->
  Int64.in_range k = true ->
  time_since_epoch (fst (m_sync s)) <= t ->
  Int64.in_range (t - time_since_epoch (fst (m_sync s))) = true ->
  Z.abs (k * (t - time_since_epoch (fst (m_sync s)))) <= 2 ^ 63 - 1 ->
  logical s t
  = Int64.wrap (time_since_epoch (snd (m_sync s))
                + k * (t - time_since_epoch (fst (m_sync s)))).
Proof.
  intros Hr Hk Hle Hd Hp. rewrite logical_eq, Hr. unfold Int64.sub.
  rewrite (wrap_small _ Hd).
  rewrite elapsed_integer_rate; [f_equal; lia|lia|exact Hd|exact Hk|].
  now rewrite Z.mul_comm.
Qed.

Lemma logical_at_2_5 (s : stopwatch) (t : Z) :
  m_speed s = ld_2_5 ->
  time_since_epoch (fst (m_sync s)) <= t ->
  Int64.in_range (t - time_since_epoch (fst (m_sync s))) = true ->
  5 * (t - time_since_epoch (fst (m_sync s))) < 2 ^ 64 ->
  logical s t
  = Int64.wrap (time_since_epoch (snd (m_sync s))
                + 5 * (t - time_since_epoch (fst (m_sync s))) / 2).
Proof.
  intros Hr Hle Hd H5. rewrite logical_eq, Hr. unfold Int64.sub.
  rewrite (wrap_small _ Hd), elapsed_2_5 by lia. reflexivity.
Qed.

(** ** Sequences of calls, run *)

Lemma invoke_all_cons (c : call) (cs : list call) (m : machine) :
  invoke_all (c :: cs) m
  = (fst (invoke c m) :: fst (invoke_all cs (snd (invoke c m))),
     snd (invoke_all cs (snd (invoke c m)))).
Proof.
  cbn [invoke_all]. unfold bind, ret.
  destruct (invoke c m) as [o m1]. cbn [fst snd].
  destruct (invoke_all cs m1) as [os m2]. reflexivity.
Qed.

Lemma invoke_now_run (m : machine) :
  invoke CallNow m
  = (RetTime (Build_time_point (logical (self m) (next_reading (source m)))),
     {| self := self m; source := advance (source m) |}).
Proof. reflexivity. Qed.

Lemma invoke_set_speed_run (x : long_double) (m : machine) :
  invoke (CallSetSpeed x) m
  = (RetVoid,
     {| self := resync (self m) (next_reading (source m)) x;
        source := advance (source m) |}).
Proof. reflexivity. Qed.

Lemma invoke_speed_run (m : machine) :
  invoke CallSpeed m = (RetSpeed (m_speed (self m)), m).
Proof. reflexivity. Qed.

Lemma report_run (n : nat) :
  forall m : machine,
    report n m
    = (map (fun i => Build_time_point
                       (logical (self m) (readings (source m) (i + reads (source m)))))
           (seq 0 n),
       {| self := self m; source := advance_by n (source m) |}).
Proof.
  induction n as [|n IH]; intros m.
  - destruct m as [s [rd k]]. reflexivity.
  - cbn [report]. unfold bind at 1. rewrite now_run.
    unfold bind at 1. rewrite IH. unfold ret.
    cbn [self source]. rewrite advance_by_S. f_equal.
    cbn [seq map]. f_equal. rewrite <- seq_shift, map_map.
    apply map_ext. intros i. cbn [advance readings reads].
    do 3 f_equal. lia.
Qed.

Lemma usage_main_run (src : steady_source) :
  usage_main src
  = (map (fun i => Build_time_point (logical (usage_sw1 src) (reading src i)))
         (seq 3 5)
     ++ map (fun i => Build_time_point (logical (usage_sw2 src) (reading src i)))
            (seq 9 5)
     ++ map (fun i => Build_time_point (logical (usage_sw3 src) (reading src i)))
            (seq 15 5),
     Int64.sub (logical (usage_sw3 src) (reading src 20))
               (logical (usage_sw0 src) (reading src 1))).
Proof.
  unfold usage_main.
  rewrite construct_run.
  unfold bind at 1. rewrite now_run.
  unfold bind at 1. rewrite set_speed_run.
  unfold bind at 1. rewrite report_run.
  unfold bind at 1. rewrite set_speed_run.
  unfold bind at 1. rewrite report_run.
  unfold bind at 1. rewrite set_speed_run.
  unfold bind at 1. rewrite report_run.
  unfold bind at 1. rewrite now_run.
  unfold ret, time_point_sub.
  cbn [fst snd self source time_since_epoch next_reading advance advance_by
       readings reads Nat.add seq map].
  unfold usage_sw3, usage_sw2, usage_sw1, usage_sw0.
  rewrite construct_run. unfold reading, next_reading.
  cbn [self Nat.add seq map]. reflexivity.
Qed.

(** ** Construction and the stopped stopwatch *)

(** X1. Whatever real rate it is given, the constructor synchronises both
    clocks at its reading, and [now()] at that same reading returns the
    reading: the stopwatch starts at [steady_clock]'s own time since
    epoch. *)
Theorem construct_aligned (x : long_double) (src : steady_source) :
  let t0 := next_reading src in
  let m := construct x src in
  LongDouble.is_real x = true ->
  Int64.in_range t0 = true ->
  next_reading (source m) = t0 ->
  m_sync (self m) = (Build_time_point t0, Build_time_point t0)
  /\ time_since_epoch (fst (now m)) = t0.
Proof.
  intros t0 m Hx Ht Hsame. subst m. rewrite construct_run in *.
  cbn [self source] in *. split; [reflexivity|].
  rewrite now_run. cbn [fst self source time_since_epoch].
  rewrite Hsame, logical_eq. cbn [m_sync m_speed fst snd time_since_epoch].
  fold t0. rewrite sub_diag, (elapsed_0 _ Hx), Z.add_0_r.
  now apply wrap_small.
Qed.

Lemma construct_aligned_witness :
  let m := construct ld_minus_0_3 (source_of [1000; 1000] 0) in
  m_sync (self m) = (Build_time_point 1000, Build_time_point 1000)
  /\ time_since_epoch (fst (now m)) = 1000.
Proof.
  intros m.
  apply (construct_aligned ld_minus_0_3 (source_of [1000; 1000] 0));
    reflexivity.
Defined.

(** X2. A stopped stopwatch stays where it is: at the rate zero every
    one of [n] successive [now()] calls returns the logical time of the
    synchronisation point (the time of construction, for a stopwatch
    constructed with the rate zero), whatever the source reads. *)
Theorem stopped_stopwatch (n : nat) :
  forall m : machine,
    LongDouble.is_zero (m_speed (self m)) = true ->
    Int64.in_range (time_since_epoch (snd (m_sync (self m)))) = true ->
    fst (invoke_all (repeat CallNow n) m)
    = repeat (RetTime (Build_time_point
                         (time_since_epoch (snd (m_sync (self m)))))) n.
Proof.
  induction n as [|n IH]; intros m Hz HL; [reflexivity|].
  cbn [repeat]. rewrite invoke_all_cons, invoke_now_run. cbn [fst snd].
  rewrite IH by assumption. cbn [self].
  rewrite (logical_zero_rate _ _ Hz), (wrap_small _ HL). reflexivity.
Qed.

Lemma stopped_stopwatch_witness :
  fst (invoke_all (repeat CallNow 3)
         (construct ld_zero (source_of [7; 8; 9; 10] 0)))
  = repeat (RetTime (Build_time_point 7)) 3.
Proof.
  apply (stopped_stopwatch 3 (construct ld_zero (source_of [7; 8; 9; 10] 0)));
    reflexivity.
Defined.

(** ** Rates: exactness, direction, tolerance *)

(** X3. A whole-number rate [k] is exact: [now()] returns
    [syncLogical + k * (t - syncMonotonic)] with no rounding, as long as
    product and sum fit 64 bits. *)
Theorem integer_rate_exact (m : machine) (k : Z) :
  let syncMonotonic := time_since_epoch (fst (m_sync (self m))) in
  let syncLogical := time_since_epoch (snd (m_sync (self m))) in
  let t := next_reading (source m) in
  m_speed (self m) = LongDouble.of_rep k ->
  Int64.in_range k = true ->
  syncMonotonic <= t ->
  Int64.in_range (t - syncMonotonic) = true ->
  Z.abs (k * (t - syncMonotonic)) <= 2 ^ 63 - 1 ->
  Int64.in_range (syncLogical + k * (t - syncMonotonic)) = true ->
  time_since_epoch (fst (now m)) = syncLogical + k * (t - syncMonotonic).
Proof.
  intros sM sL t Hr Hk Hle Hd Hp Hl. rewrite now_run.
  cbn [fst time_since_epoch]. fold t.
  rewrite (logical_integer_rate _ k t Hr Hk Hle Hd Hp).
  now apply wrap_small.
Qed.

Lemma integer_rate_exact_witness :
  let m := snd (set_speed (LongDouble.of_rep (-2))
                  (construct default_speed (source_of [100; 150; 160] 0))) in
  time_since_epoch (fst (now m)) = 150 + -2 * (160 - 150).
Proof.
  intros m.
  apply (integer_rate_exact m (-2));
    [reflexivity | reflexivity | cbn; lia | reflexivity | cbn; lia
    | reflexivity].
Defined.

(** X4. At a whole-number rate [k] the duration between two successive
    time points is [k] times the monotonic duration between the two
    readings: at the rate 1 the stopwatch measures what [steady_clock]
    measures, at -1 its negation. *)
Theorem integer_rate_duration (m : machine) (k : Z) :
  let syncMonotonic := time_since_epoch (fst (m_sync (self m))) in
  let t1 := next_reading (source m) in
  let t2 := next_reading (advance (source m)) in
  m_speed (self m) = LongDouble.of_rep k ->
  Int64.in_range k = true ->
  syncMonotonic <= t1 <= t2 ->
  Int64.in_range (t2 - syncMonotonic) = true ->
  Z.abs (k * (t2 - syncMonotonic)) <= 2 ^ 63 - 1 ->
  time_point_sub (fst (now (snd (now m)))) (fst (now m)) = k * (t2 - t1).
Proof.
  intros sM t1 t2 Hr Hk [H1 H12] Hd Hp.
  rewrite (now_run m). cbn [fst snd]. rewrite now_run.
  cbn [fst self source]. fold t1 t2.
  unfold time_point_sub. cbn [time_since_epoch].
  pose proof Hd as Hd'. apply in_range_bounds in Hd'.
  assert (Hd1 : Int64.in_range (t1 - sM) = true)
    by (apply in_range_bounds; lia).
  assert (Hp1 : Z.abs (k * (t1 - sM)) <= 2 ^ 63 - 1).
  { rewrite Z.abs_mul in *. rewrite (Z.abs_eq (t1 - sM)) by lia.
    rewrite (Z.abs_eq (t2 - sM)) in Hp by lia.
    pose proof (Z.abs_nonneg k). nia. }
  assert (Hp12 : Z.abs (k * (t2 - t1)) <= 2 ^ 63 - 1).
  { rewrite Z.abs_mul in *. rewrite (Z.abs_eq (t2 - t1)) by lia.
    rewrite (Z.abs_eq (t2 - sM)) in Hp by lia.
    pose proof (Z.abs_nonneg k). nia. }
  rewrite (logical_integer_rate _ k t2 Hr Hk ltac:(lia) Hd Hp).
  rewrite (logical_integer_rate _ k t1 Hr Hk H1 Hd1 Hp1).
  fold sM. unfold Int64.sub. rewrite wrap_sub_l, wrap_sub_r.
  replace (time_since_epoch (snd (m_sync (self m))) + k * (t2 - sM)
           - (time_since_epoch (snd (m_sync (self m))) + k * (t1 - sM)))
    with (k * (t2 - t1)) by lia.
  apply wrap_small, in_range_bounds. lia.
Qed.

Lemma integer_rate_duration_witness :
  let m := construct default_speed (source_of [100; 150; 175] 0) in
  time_point_sub (fst (now (snd (now m)))) (fst (now m)) = 1 * (175 - 150).
Proof.
  intros m.
  apply (integer_rate_duration m 1);
    [reflexivity | reflexivity | cbn; lia | reflexivity | cbn; lia].
Defined.

(** X5. At a positive rate, with readings at or after the
    synchronisation point and the product inside the 64-bit range,
    successive [now()] calls never go back: the second time point is at or
    after the first, and both at or after the synchronisation point. *)
Theorem positive_rate_nondecreasing (m : machine) :
  let syncMonotonic := time_since_epoch (fst (m_sync (self m))) in
  let syncLogical := time_since_epoch (snd (m_sync (self m))) in
  let rate := m_speed (self m) in
  let t1 := next_reading (source m) in
  let t2 := next_reading (advance (source m)) in
  let first := time_since_epoch (fst (now m)) in
  let second := time_since_epoch (fst (now (snd (now m)))) in
  is_positive rate = true ->
  syncMonotonic <= t1 <= t2 ->
  Int64.in_range (t2 - syncMonotonic) = true ->
  0 <= elapsed (t2 - syncMonotonic) rate ->
  Int64.in_range syncLogical = true ->
  Int64.in_range (syncLogical + elapsed (t2 - syncMonotonic) rate) = true ->
  syncLogical <= first <= second.
Proof.
  intros sM sL rate t1 t2 first second Hpos [Hs1 H12] Hd Hok HL Hl2.
  assert (E1 : first = Int64.wrap (sL + elapsed (Int64.sub t1 sM) rate))
    by reflexivity.
  assert (E2 : second = Int64.wrap (sL + elapsed (Int64.sub t2 sM) rate))
    by reflexivity.
  pose proof Hd as Hd'. apply in_range_bounds in Hd'.
  assert (Hd1 : Int64.in_range (t1 - sM) = true)
    by (apply in_range_bounds; lia).
  unfold Int64.sub in E1, E2.
  rewrite (wrap_small _ Hd1) in E1. rewrite (wrap_small _ Hd) in E2.
  pose proof (elapsed_positive_rate_mono (t1 - sM) (t2 - sM) rate Hpos
                ltac:(lia) ltac:(lia) Hok) as [Hnonneg Hmono].
  rewrite (wrap_small _ Hl2) in E2.
  assert (Hl1 : Int64.in_range (sL + elapsed (t1 - sM) rate) = true).
  { apply in_range_bounds in HL. apply in_range_bounds in Hl2.
    apply in_range_bounds. lia. }
  rewrite (wrap_small _ Hl1) in E1. lia.
Qed.

Lemma positive_rate_nondecreasing_witness :
  let m := snd (set_speed ld_2_5
                  (construct default_speed (source_of [100; 100; 101; 102] 0))) in
  100 <= time_since_epoch (fst (now m))
      <= time_since_epoch (fst (now (snd (now m)))).
Proof.
  intros m.
  apply (positive_rate_nondecreasing m);
    [reflexivity | cbn; lia | reflexivity | apply Z.leb_le; reflexivity
    | reflexivity | reflexivity].
Defined.

(** X6. Linearity within a segment: for a rate [m * 2^e] with [e < 0],
    the logical time elapsed since the synchronisation point, as [now()]
    returns it, is less than two ticks away from the exact product of the
    monotonic time and the rate (both in units of [2^e]). *)
Theorem now_within_two_ticks (m : machine) (s : bool) (mr : positive)
    (er : Z) :
  let syncMonotonic := time_since_epoch (fst (m_sync (self m))) in
  let syncLogical := time_since_epoch (snd (m_sync (self m))) in
  let t := next_reading (source m) in
  m_speed (self m) = S754_finite s mr er ->
  er < 0 ->
  syncMonotonic <= t ->
  Int64.in_range (t - syncMonotonic) = true ->
  (t - syncMonotonic) * Z.pos mr <= (2 ^ 63 - 1) * 2 ^ (- er) ->
  Int64.in_range
    (syncLogical + elapsed (t - syncMonotonic) (S754_finite s mr er)) = true ->
  Z.abs ((time_since_epoch (fst (now m)) - syncLogical) * 2 ^ (- er)
         - cond_Zopp s ((t - syncMonotonic) * Z.pos mr))
  < 2 * 2 ^ (- er).
Proof.
  intros sM sL t Hr He Hle Hd Hx Hl.
  assert (E : time_since_epoch (fst (now m))
              = Int64.wrap (sL + elapsed (Int64.sub t sM) (m_speed (self m))))
    by reflexivity.
  pose proof Hd as Hd'. apply in_range_bounds in Hd'.
  unfold Int64.sub in E. rewrite Hr, (wrap_small _ Hd), (wrap_small _ Hl) in E.
  rewrite E.
  replace (sL + elapsed (t - sM) (S754_finite s mr er) - sL)
    with (elapsed (t - sM) (S754_finite s mr er)) by lia.
  apply elapsed_within_two_ticks; lia.
Qed.

Lemma now_within_two_ticks_witness :
  let m := snd (set_speed ld_minus_0_3
                  (construct default_speed
                     (source_of [1000; 1000; 1000001000] 0))) in
  Z.abs ((time_since_epoch (fst (now m)) - 1000) * 2 ^ (- -65)
         - cond_Zopp true ((1000001000 - 1000) * 11068046444225730560))
  < 2 * 2 ^ (- -65).
Proof.
  intros m.
  apply (now_within_two_ticks m true 11068046444225730560 (-65));
    [reflexivity | lia | cbn; lia | reflexivity | apply Z.leb_le; reflexivity
    | reflexivity].
Defined.

(** X10. At a negative rate, with the reading at or after the
    synchronisation point and logical time inside the 64-bit range,
    [now()] is never ahead of the logical time of the synchronisation
    point. *)
Theorem reverse_never_ahead (m : machine) :
  let syncMonotonic := time_since_epoch (fst (m_sync (self m))) in
  let syncLogical := time_since_epoch (snd (m_sync (self m))) in
  let rate := m_speed (self m) in
  let t := next_reading (source m) in
  LongDouble.is_negative rate = true ->
  syncMonotonic <= t ->
  Int64.in_range (t - syncMonotonic) = true ->
  Int64.in_range (syncLogical + elapsed (t - syncMonotonic) rate) = true ->
  time_since_epoch (fst (now m)) <= syncLogical.
Proof.
  intros sM sL rate t Hneg Hle Hd Hl.
  assert (E : time_since_epoch (fst (now m))
              = Int64.wrap (sL + elapsed (Int64.sub t sM) rate))
    by reflexivity.
  pose proof Hd as Hd'. apply in_range_bounds in Hd'.
  unfold Int64.sub in E. rewrite (wrap_small _ Hd), (wrap_small _ Hl) in E.
  pose proof (elapsed_negative_rate_mono (t - sM) (t - sM) rate Hneg
                ltac:(lia) ltac:(lia)) as [_ Hnonpos].
  lia.
Qed.

Lemma reverse_never_ahead_witness :
  let m := snd (set_speed ld_minus_0_3
                  (construct default_speed (source_of [1000; 1000; 1002] 0))) in
  time_since_epoch (fst (now m)) <= 1000.
Proof.
  intros m.
  apply (reverse_never_ahead m);
    [reflexivity | cbn; lia | reflexivity | reflexivity].
Defined.

(** ** Rate changes, composed *)

(** X7. Time spent stopped does not count: after [set_speed(0)] and a
    later [set_speed(r)], the synchronisation point holds the logical time
    of the moment of stopping, however long the pause, and [now()]
    continues from it at the rate [r]. *)
Theorem pause_and_resume (m : machine) (z r : long_double) :
  let paused := snd (set_speed z m) in
  let resumed := snd (set_speed r paused) in
  let t2 := next_reading (source paused) in
  let t3 := next_reading (source resumed) in
  LongDouble.is_zero z = true ->
  snd (m_sync (self resumed)) = snd (m_sync (self paused))
  /\ time_since_epoch (fst (now resumed))
     = Int64.wrap (time_since_epoch (snd (m_sync (self paused)))
                   + elapsed (Int64.sub t3 t2) r).
Proof.
  intros paused resumed t2 t3 Hz. subst paused resumed t2 t3.
  rewrite !set_speed_run. cbn [snd self source].
  assert (Hp : logical (resync (self m) (next_reading (source m)) z)
                 (next_reading (advance (source m)))
               = logical (self m) (next_reading (source m))).
  { rewrite logical_zero_rate by exact Hz.
    cbn [resync m_sync snd time_since_epoch].
    apply wrap_small, logical_range. }
  split.
  - unfold resync at 1. cbn [m_sync snd]. rewrite Hp. reflexivity.
  - rewrite now_run. cbn [fst self source time_since_epoch].
    rewrite logical_resync, Hp. reflexivity.
Qed.

Lemma pause_and_resume_witness :
  let m := construct default_speed (source_of [100; 150; 900; 904] 0) in
  let paused := snd (set_speed ld_zero m) in
  let resumed := snd (set_speed ld_2_5 paused) in
  snd (m_sync (self resumed)) = snd (m_sync (self paused))
  /\ time_since_epoch (fst (now resumed))
     = Int64.wrap (time_since_epoch (snd (m_sync (self paused)))
                   + elapsed (Int64.sub 904 900) ld_2_5).
Proof.
  intros m paused resumed.
  apply (pause_and_resume m ld_zero ld_2_5). reflexivity.
Defined.

(** X8. Two rate changes at the same reading leave the state of the
    second one alone, when the first rate is a real number. *)
Theorem rate_changes_at_one_instant (m : machine) (x y : long_double) :
  LongDouble.is_real x = true ->
  next_reading (advance (source m)) = next_reading (source m) ->
  self (snd (set_speed y (snd (set_speed x m)))) = self (snd (set_speed y m)).
Proof.
  intros Hx Hsame. rewrite !set_speed_run. cbn [snd self source].
  rewrite Hsame. unfold resync at 1 3. f_equal. f_equal. f_equal.
  rewrite logical_resync, sub_diag, (elapsed_0 _ Hx), Z.add_0_r.
  apply wrap_small, logical_range.
Qed.

Lemma rate_changes_at_one_instant_witness :
  let m := construct default_speed (source_of [100; 150; 150] 0) in
  self (snd (set_speed ld_2_5 (snd (set_speed ld_minus_0_3 m))))
  = self (snd (set_speed ld_2_5 m)).
Proof.
  intros m.
  apply (rate_changes_at_one_instant m ld_minus_0_3 ld_2_5); reflexivity.
Defined.

(** X9. Over any sequence of calls the source is read once by each
    [now()] and each [set_speed()] and never by [speed()], and the object
    changes only if the sequence has a [set_speed()]. *)
Theorem clock_reads_counted (cs : list call) :
  forall m : machine,
    source (snd (invoke_all cs m))
    = advance_by (length (filter reads_clock cs)) (source m)
    /\ (existsb is_set_speed cs = true
        \/ self (snd (invoke_all cs m)) = self m).
Proof.
  induction cs as [|c cs IH]; intros m.
  - cbn. split; [destruct (source m); reflexivity | now right].
  - rewrite invoke_all_cons. cbn [snd].
    destruct c as [|x|];
      cbn [filter reads_clock existsb is_set_speed orb length].
    + rewrite invoke_now_run. cbn [snd].
      destruct (IH {| self := self m; source := advance (source m) |})
        as [IHs IHo].
      cbn [self source] in *. rewrite IHs, advance_by_S. now split.
    + rewrite invoke_set_speed_run. cbn [snd].
      destruct (IH {| self := resync (self m) (next_reading (source m)) x;
                      source := advance (source m) |}) as [IHs _].
      cbn [self source] in *. rewrite IHs, advance_by_S. split; [reflexivity|now left].
    + rewrite invoke_speed_run. cbn [snd]. apply IH.
Qed.

(** X11. Running at a whole-number rate [k] and then at [-k] for the same
    monotonic time brings the stopwatch back: [now()] returns the logical
    time at which the first of the two rate changes was made. *)
Theorem rewind (m : machine) (k : Z) :
  let forward := snd (set_speed (LongDouble.of_rep k) m) in
  let backward := snd (set_speed (LongDouble.of_rep (- k)) forward) in
  let t1 := next_reading (source m) in
  let t2 := next_reading (source forward) in
  let t3 := next_reading (source backward) in
  Int64.in_range k = true ->
  Int64.in_range (- k) = true ->
  t1 <= t2 ->
  Int64.in_range (t2 - t1) = true ->
  t3 - t2 = t2 - t1 ->
  Z.abs (k * (t2 - t1)) <= 2 ^ 63 - 1 ->
  fst (now backward) = snd (m_sync (self forward)).
Proof.
  intros forward backward t1 t2 t3 Hk Hnk H12 Hd H23 Hp.
  subst forward backward t1 t2 t3.
  rewrite !set_speed_run in *. cbn [snd self source] in *.
  set (t1 := next_reading (source m)) in *.
  set (t2 := next_reading (advance (source m))) in *.
  set (t3 := next_reading (advance (advance (source m)))) in *.
  rewrite now_run. cbn [fst self source]. fold t3.
  unfold resync at 3. cbn [m_sync snd]. f_equal.
  pose proof Hd as Hd'. apply in_range_bounds in Hd'.
  rewrite logical_integer_rate with (k := - k);
    cbn [resync m_sync m_speed fst snd time_since_epoch];
    [|reflexivity|exact Hnk|lia|rewrite H23; exact Hd|
     rewrite H23, Z.mul_opp_l, Z.abs_opp; exact Hp].
  rewrite logical_integer_rate with (k := k);
    cbn [resync m_sync m_speed fst snd time_since_epoch];
    [|reflexivity|exact Hk|lia|exact Hd|exact Hp].
  rewrite wrap_add_l, H23.
  replace (logical (self m) t1 + k * (t2 - t1) + - k * (t2 - t1))
    with (logical (self m) t1) by lia.
  apply wrap_small, logical_range.
Qed.

Lemma rewind_witness :
  let m := construct default_speed (source_of [100; 150; 180; 210] 0) in
  let forward := snd (set_speed (LongDouble.of_rep 3) m) in
  let backward := snd (set_speed (LongDouble.of_rep (- 3)) forward) in
  fst (now backward) = snd (m_sync (self forward)).
Proof.
  intros m forward backward.
  apply (rewind m 3);
    [reflexivity | reflexivity | cbn; lia | reflexivity | reflexivity
    | cbn; lia].
Defined.

(** ** The example program *)

Ltac range_side :=
  match goal with
  | |- Int64.in_range _ = true => apply in_range_bounds; lia
  | |- _ => lia
  end.

Lemma usage_stage0 (src : steady_source) (t : Z) :
  0 <= reading src 0 <= t -> t <= 2 ^ 60 ->
  logical (usage_sw0 src) t = t.
Proof.
  intros H0 Ht.
  assert (E : usage_sw0 src
              = {| m_sync := (Build_time_point (reading src 0),
                              Build_time_point (reading src 0));
                   m_speed := LongDouble.of_rep 1 |}) by reflexivity.
  rewrite (logical_integer_rate _ 1 t); try rewrite E;
    cbn [m_sync m_speed fst snd time_since_epoch];
    try solve [reflexivity | range_side].
  match goal with
  | |- Int64.wrap ?z = ?v => replace z with v by lia
  end.
  apply wrap_small, in_range_bounds. lia.
Qed.

Lemma usage_stage1 (src : steady_source) (t : Z) :
  0 <= reading src 0 <= reading src 2 ->
  reading src 2 <= t -> t <= 2 ^ 60 ->
  logical (usage_sw1 src) t = 2 * reading src 2 - t.
Proof.
  intros H0 H2 Ht.
  assert (E : usage_sw1 src
              = {| m_sync := (Build_time_point (reading src 2),
                              Build_time_point (reading src 2));
                   m_speed := LongDouble.of_rep (-1) |}).
  { unfold usage_sw1, resync. rewrite usage_stage0 by lia. reflexivity. }
  rewrite (logical_integer_rate _ (-1) t); try rewrite E;
    cbn [m_sync m_speed fst snd time_since_epoch];
    try solve [reflexivity | range_side].
  match goal with
  | |- Int64.wrap ?z = ?v => replace z with v by lia
  end.
  apply wrap_small, in_range_bounds. lia.
Qed.

Lemma usage_stage2 (src : steady_source) (t : Z) :
  0 <= reading src 0 <= reading src 2 ->
  reading src 2 <= reading src 8 ->
  reading src 8 <= t -> t <= 2 ^ 60 ->
  logical (usage_sw2 src) t
  = 2 * reading src 2 - reading src 8 + 5 * (t - reading src 8) / 2.
Proof.
  intros H0 H2 H8 Ht.
  assert (E : usage_sw2 src
              = {| m_sync := (Build_time_point (reading src 8),
                              Build_time_point (2 * reading src 2 - reading src 8));
                   m_speed := ld_2_5 |}).
  { unfold usage_sw2, resync. rewrite usage_stage1 by lia. reflexivity. }
  rewrite logical_at_2_5; try rewrite E;
    cbn [m_sync m_speed fst snd time_since_epoch];
    try solve [reflexivity | range_side].
  apply wrap_small, in_range_bounds.
  assert (0 <= 5 * (t - reading src 8) / 2 <= 5 * 2 ^ 59); [|lia].
  split; [apply Z.div_pos; lia | apply Z.div_le_upper_bound; lia].
Qed.

Lemma usage_stage3 (src : steady_source) (t : Z) :
  0 <= reading src 0 <= reading src 2 ->
  reading src 2 <= reading src 8 ->
  reading src 8 <= reading src 14 -> reading src 14 <= 2 ^ 60 ->
  logical (usage_sw3 src) t
  = 2 * reading src 2 - reading src 8
    + 5 * (reading src 14 - reading src 8) / 2.
Proof.
  intros H0 H2 H8 H14.
  rewrite logical_zero_rate by reflexivity.
  unfold usage_sw3, resync. cbn [m_sync snd time_since_epoch].
  rewrite usage_stage2 by lia.
  apply wrap_small, in_range_bounds.
  assert (0 <= 5 * (reading src 14 - reading src 8) / 2 <= 5 * 2 ^ 59); [|lia].
  split; [apply Z.div_pos; lia | apply Z.div_le_upper_bound; lia].
Qed.

(** X12. The duration the example program reports. With non-negative,
    non-decreasing readings (constructor, [start], and the three
    [set_speed] calls, in this order, below [2^60] ticks),
    [finish - start] is the time run
    forward before the reversal, minus the time run in reverse, plus 2.5
    times the time run fast (halves truncated); neither the time spent
    stopped nor the reading of [finish] enters. *)
Theorem usage_duration (src : steady_source) :
  let R := reading src in
  0 <= R 0%nat -> R 0%nat <= R 1%nat -> R 1%nat <= R 2%nat ->
  R 2%nat <= R 8%nat -> R 8%nat <= R 14%nat -> R 14%nat <= 2 ^ 60 ->
  snd (usage_main src)
  = (R 2%nat - R 1%nat) - (R 8%nat - R 2%nat)
    + 5 * (R 14%nat - R 8%nat) / 2.
Proof.
  intros R H0 H01 H12 H28 H814 Hmax. subst R.
  rewrite usage_main_run. cbn [snd].
  rewrite usage_stage3, usage_stage0 by lia.
  set (q := 5 * (reading src 14 - reading src 8) / 2).
  assert (Hq : 0 <= q <= 5 * 2 ^ 59)
    by (split; [apply Z.div_pos; lia | apply Z.div_le_upper_bound; lia]).
  unfold Int64.sub. rewrite wrap_small by (apply in_range_bounds; lia).
  lia.
Qed.

Lemma usage_duration_witness :
  snd (usage_main one_second_source) = 10000000000.
Proof.
  apply (usage_duration one_second_source); cbn; lia.
Defined.

(** X13. The fifteen time points the example program reads in its three
    loops, for non-decreasing readings below [2^60] ticks: five going back
    one tick per tick from the reversal, five going forward at 2.5 from
    the second rate change, and five equal ones once stopped. *)
Theorem usage_output (src : steady_source) :
  let R := reading src in
  nondecreasing (map R (seq 0 15)) = true ->
  0 <= R 0%nat ->
  R 14%nat <= 2 ^ 60 ->
  fst (usage_main src)
  = map (fun i => Build_time_point (2 * R 2%nat - R i)) (seq 3 5)
    ++ map (fun i => Build_time_point
                       (2 * R 2%nat - R 8%nat + 5 * (R i - R 8%nat) / 2))
           (seq 9 5)
    ++ repeat (Build_time_point
                 (2 * R 2%nat - R 8%nat + 5 * (R 14%nat - R 8%nat) / 2)) 5.
Proof.
  intros R Hsorted H0 Hmax. subst R.
  cbn [map seq nondecreasing] in Hsorted.
  repeat (apply andb_prop in Hsorted; destruct Hsorted as [?Hle Hsorted]).
  repeat match goal with
         | H : (_ <=? _) = true |- _ => apply Z.leb_le in H
         end.
  rewrite usage_main_run. cbn [fst map seq repeat].
  rewrite !usage_stage1, !usage_stage2, !usage_stage3 by lia.
  reflexivity.
Qed.

Lemma usage_output_witness :
  fst (usage_main one_second_source)
  = map (fun ns => Build_time_point ns)
      [1001000000000; 1000000000000; 999000000000; 998000000000;
       997000000000;
       998500000000; 1001000000000; 1003500000000; 1006000000000;
       1008500000000;
       1011000000000; 1011000000000; 1011000000000; 1011000000000;
       1011000000000].
Proof.
  rewrite (usage_output one_second_source);
    [reflexivity | reflexivity | cbn; lia | cbn; lia].
Defined.
